(** * Encrypted file store: the codec and the blob framer of [backend/server.js],
      and the passphrase handling of [frontend/script.js].

    The development follows the two source files:
    - Node's [Buffer] is [list byte]; offsets and lengths are [N];
    - JavaScript strings are sequences of UTF-16 code units;
    - a JavaScript exception is the [Throw] case of [result];
    - [node:crypto] (scrypt, AES-256-GCM, the random source) is an interface,
      [NodeCrypto], with the contract the code relies on, [NodeCryptoSpec];
    - the storage directory, [localStorage] and [sessionStorage] are finite
      maps;
    - the DOM tree of the preview area is a tree of nodes whose elements
      carry their identity. *)

From Stdlib Require Import NArith Strings.Byte Lia.
From stdpp Require Import gmap strings list.

Open Scope N_scope.

(** ** Exceptions *)

Inductive exn : Type :=
| Error (message : string)        (* [new Error(message)] *)
| RangeError (code : string)      (* thrown by Buffer's checked accessors *)
| TypeError (code : string).      (* thrown by [res.setHeader] *)

Inductive result (A : Type) : Type :=
| Ok (a : A)
| Throw (e : exn).
Arguments Ok {A} a.
Arguments Throw {A} e.

Definition bind {A B} (m : result A) (k : A -> result B) : result B :=
  match m with
  | Ok a => k a
  | Throw e => Throw e
  end.

Notation "'do' x <- m ; k" := (bind m (fun x => k))
  (at level 20, x pattern, m at level 100, k at level 200).
Notation "'check' m ; k" := (bind m (fun _ => k))
  (at level 20, m at level 100, k at level 200).

(** ** Buffers *)

Abbreviation Buffer := (list byte).

(** [buf.length] *)
Definition blen (buf : Buffer) : N := N.of_nat (length buf).

(** Storing a number into a byte cell keeps its low eight bits. *)
Definition byte_of_N (n : N) : byte :=
  match Byte.of_N (n mod 256) with
  | Some b => b
  | None => "000"%byte
  end.

(** [buf.subarray(start, end)]: both ends are clamped to the buffer, and an
    end before the start gives the empty view. *)
Definition subarray (buf : Buffer) (start end_ : N) : Buffer :=
  take (N.to_nat (end_ - start)) (drop (N.to_nat start) buf).

(** [buf.subarray(start)] *)
Definition subarray_from (buf : Buffer) (start : N) : Buffer :=
  drop (N.to_nat start) buf.

(** [function writeUInt32LE(n)]: a fresh 4-byte buffer holding [n];
    [Buffer.prototype.writeUInt32LE] throws when [n] is not a 32-bit value. *)
Definition writeUInt32LE (n : N) : result Buffer :=
  if n <=? 4294967295 then
    Ok [byte_of_N n; byte_of_N (N.shiftr n 8);
        byte_of_N (N.shiftr n 16); byte_of_N (N.shiftr n 24)]
  else Throw (RangeError "ERR_OUT_OF_RANGE").

(** [function readUInt32LE(buf, offset)]: [Buffer.prototype.readUInt32LE]
    throws when the four bytes are not all inside the buffer. *)
Definition readUInt32LE (buf : Buffer) (offset : N) : result N :=
  match drop (N.to_nat offset) buf with
  | b0 :: b1 :: b2 :: b3 :: _ =>
      Ok (Byte.to_N b0 + Byte.to_N b1 * 2 ^ 8
          + Byte.to_N b2 * 2 ^ 16 + Byte.to_N b3 * 2 ^ 24)
  | _ =>
      Throw (RangeError (if blen buf <? 4 then "ERR_BUFFER_OUT_OF_BOUNDS"
                         else "ERR_OUT_OF_RANGE"))
  end.

(** ** JavaScript strings and their UTF-8 form *)

(** A string is its sequence of UTF-16 code units. *)
Abbreviation jsstring := (list N).

(** An ASCII literal as a JavaScript string. *)
Fixpoint js (s : string) : jsstring :=
  match s with
  | EmptyString => []
  | String a rest => Ascii.N_of_ascii a :: js rest
  end.

(** [a || b] on strings: the empty string is falsy. *)
Definition or_else (a b : jsstring) : jsstring :=
  match a with
  | [] => b
  | _ => a
  end.

Definition is_high_surrogate (c : N) : bool := (55296 <=? c) && (c <? 56320).
Definition is_low_surrogate (c : N) : bool := (56320 <=? c) && (c <? 57344).

(** [String.prototype.isWellFormed]: 16-bit units, every surrogate paired. *)
Fixpoint isWellFormed (s : jsstring) : bool :=
  match s with
  | [] => true
  | c :: rest =>
      if is_high_surrogate c then
        match rest with
        | d :: rest' => is_low_surrogate d && isWellFormed rest'
        | [] => false
        end
      else (c <? 65536) && negb (is_low_surrogate c) && isWellFormed rest
  end.

(** The three bytes of U+FFFD, written for a lone surrogate. *)
Definition replacement_bytes : Buffer := ["239"; "191"; "189"]%byte.

(** [Buffer.from(s, "utf8")] *)
Fixpoint Buffer_from_utf8 (s : jsstring) : Buffer :=
  match s with
  | [] => []
  | c :: rest =>
      if c <? 128 then byte_of_N c :: Buffer_from_utf8 rest
      else if c <? 2048 then
        byte_of_N (192 + c / 64) :: byte_of_N (128 + c mod 64)
          :: Buffer_from_utf8 rest
      else if is_high_surrogate c then
        match rest with
        | d :: rest' =>
            if is_low_surrogate d then
              let cp := 65536 + (c - 55296) * 1024 + (d - 56320) in
              byte_of_N (240 + cp / 262144)
                :: byte_of_N (128 + (cp / 4096) mod 64)
                :: byte_of_N (128 + (cp / 64) mod 64)
                :: byte_of_N (128 + cp mod 64)
                :: Buffer_from_utf8 rest'
            else replacement_bytes ++ Buffer_from_utf8 rest
        | [] => replacement_bytes
        end
      else if is_low_surrogate c then replacement_bytes ++ Buffer_from_utf8 rest
      else
        byte_of_N (224 + c / 4096) :: byte_of_N (128 + (c / 64) mod 64)
          :: byte_of_N (128 + c mod 64) :: Buffer_from_utf8 rest
  end.

(** The decoder of [buf.toString("utf8")]: it never throws; every maximal
    ill-formed run of bytes becomes one U+FFFD. *)
Record utf8_state : Type := {
  code_point : N;      (* bits gathered so far *)
  bytes_needed : nat;  (* continuation bytes still expected *)
  lower : N;           (* bounds for the next continuation byte *)
  upper : N
}.

Definition utf8_start : utf8_state :=
  {| code_point := 0; bytes_needed := 0; lower := 128; upper := 191 |}.

(** A scalar value as one or two code units. *)
Definition units_of_code_point (cp : N) : jsstring :=
  if cp <? 65536 then [cp]
  else [55296 + (cp - 65536) / 1024; 56320 + (cp - 65536) mod 1024].

(** A byte met when no sequence is open. *)
Definition utf8_lead (b : N) : jsstring * utf8_state :=
  if b <? 128 then ([b], utf8_start)
  else if (194 <=? b) && (b <=? 223) then
    ([], {| code_point := b - 192; bytes_needed := 1;
            lower := 128; upper := 191 |})
  else if (224 <=? b) && (b <=? 239) then
    ([], {| code_point := b - 224; bytes_needed := 2;
            lower := (if b =? 224 then 160 else 128);
            upper := (if b =? 237 then 159 else 191) |})
  else if (240 <=? b) && (b <=? 244) then
    ([], {| code_point := b - 240; bytes_needed := 3;
            lower := (if b =? 240 then 144 else 128);
            upper := (if b =? 244 then 143 else 191) |})
  else ([65533], utf8_start).

Definition utf8_step (st : utf8_state) (b : N) : jsstring * utf8_state :=
  match bytes_needed st with
  | O => utf8_lead b
  | S n =>
      if (lower st <=? b) && (b <=? upper st) then
        let cp := code_point st * 64 + (b - 128) in
        match n with
        | O => (units_of_code_point cp, utf8_start)
        | S _ => ([], {| code_point := cp; bytes_needed := n;
                         lower := 128; upper := 191 |})
        end
      else
        (* the open sequence is replaced and the byte is decoded afresh *)
        let '(out, st') := utf8_lead b in (65533 :: out, st')
  end.

Fixpoint utf8_decode (st : utf8_state) (bytes : Buffer) : jsstring :=
  match bytes with
  | [] => match bytes_needed st with O => [] | S _ => [65533] end
  | b :: rest =>
      let '(out, st') := utf8_step st (Byte.to_N b) in
      out ++ utf8_decode st' rest
  end.

(** [buf.toString("utf8")] *)
Definition toString_utf8 (buf : Buffer) : jsstring := utf8_decode utf8_start buf.


(** ** The blob framer *)

(** What [encryptBuffer] returns and [decryptBuffer] takes. *)
Record payload : Type := {
  ciphertext : Buffer;
  iv : Buffer;
  authTag : Buffer;
  salt : Buffer
}.

(** [/api/encrypt], from [const nameBuf] to [const blob]: the stored blob. *)
Definition serializeBlob (enc : payload) (originalname mimetype : jsstring)
  : result Buffer :=
  let nameBuf := Buffer_from_utf8 originalname in
  let mimeBuf :=
    Buffer_from_utf8 (or_else mimetype (js "application/octet-stream")) in
  do nameLen <- writeUInt32LE (blen nameBuf);
  do mimeLen <- writeUInt32LE (blen mimeBuf);
  let header :=
    concat [salt enc; iv enc; authTag enc; nameLen; nameBuf; mimeLen; mimeBuf] in
  Ok (concat [header; ciphertext enc]).

(** The fields [/api/decrypt] reads out of a blob. *)
Record frame : Type := {
  f_salt : Buffer;
  f_iv : Buffer;
  f_authTag : Buffer;
  f_name : jsstring;
  f_mime : jsstring;
  f_ciphertext : Buffer
}.

(** [const need = (n) => ...], closed over [blob] and the current [offset]. *)
Definition need (blob : Buffer) (offset n : N) : result unit :=
  if blen blob <? offset + n then Throw (Error "truncated header") else Ok tt.

(** [/api/decrypt], from [let offset = 0] to the [missing ciphertext] test. *)
Definition deserializeBlob (blob : Buffer) : result frame :=
  let offset := 0 in
  check need blob offset 16;
  let salt := subarray blob offset (offset + 16) in
  let offset := offset + 16 in
  check need blob offset 12;
  let iv := subarray blob offset (offset + 12) in
  let offset := offset + 12 in
  check need blob offset 16;
  let authTag := subarray blob offset (offset + 16) in
  let offset := offset + 16 in
  check need blob offset 4;
  do nameLen <- readUInt32LE blob offset;
  let offset := offset + 4 in
  check need blob offset nameLen;
  let name := toString_utf8 (subarray blob offset (offset + nameLen)) in
  let offset := offset + nameLen in
  check need blob offset 4;
  do mimeLen <- readUInt32LE blob offset;
  let offset := offset + 4 in
  check need blob offset mimeLen;
  let mime := toString_utf8 (subarray blob offset (offset + mimeLen)) in
  let offset := offset + mimeLen in
  let ciphertext := subarray_from blob offset in
  if blen ciphertext =? 0 then Throw (Error "missing ciphertext")
  else
    Ok {| f_salt := salt; f_iv := iv; f_authTag := authTag;
          f_name := name; f_mime := mime; f_ciphertext := ciphertext |}.


(** ** node:crypto *)

(** The part of [node:crypto] the server calls.  The random source is a state
    threaded through the calls.  A [Cipher] or [Decipher] object is a value
    that each method call replaces: [update] and [final] return their output
    together with the object's next state. *)
Class NodeCrypto : Type := {
  rng : Type;
  randomBytes : N -> rng -> Buffer * rng;
  randomUUID : rng -> jsstring * rng;
  scryptSync : jsstring -> Buffer -> N -> Buffer;
  Cipher : Type;
  createCipheriv : string -> Buffer -> Buffer -> result Cipher;
  cipher_update : Cipher -> Buffer -> result (Buffer * Cipher);
  cipher_final : Cipher -> result (Buffer * Cipher);
  getAuthTag : Cipher -> result Buffer;
  Decipher : Type;
  createDecipheriv : string -> Buffer -> Buffer -> result Decipher;
  setAuthTag : Decipher -> Buffer -> result Decipher;
  decipher_update : Decipher -> Buffer -> result (Buffer * Decipher);
  decipher_final : Decipher -> result Buffer
}.

Section Codec.
Context {C : NodeCrypto}.

(** [function deriveKey(secret, salt)] *)
Definition deriveKey (secret : jsstring) (salt : Buffer) : Buffer :=
  scryptSync secret salt 32.

(** [function encryptBuffer(buf, secret)] *)
Definition encryptBuffer (buf : Buffer) (secret : jsstring) (g : rng)
  : result payload * rng :=
  let '(salt, g) := randomBytes 16 g in
  let key := deriveKey secret salt in
  let '(iv, g) := randomBytes 12 g in
  (do cipher <- createCipheriv "aes-256-gcm" key iv;
   do updated <- cipher_update cipher buf;
   do final <- cipher_final updated.2;
   let ciphertext := concat [updated.1; final.1] in
   do authTag <- getAuthTag final.2;
   Ok {| ciphertext := ciphertext; iv := iv; authTag := authTag; salt := salt |},
   g).

(** [function decryptBuffer(payload, secret)] *)
Definition decryptBuffer (p : payload) (secret : jsstring) : result Buffer :=
  let key := deriveKey secret (salt p) in
  do decipher <- createDecipheriv "aes-256-gcm" key (iv p);
  do decipher <- setAuthTag decipher (authTag p);
  do updated <- decipher_update decipher (ciphertext p);
  do final <- decipher_final updated.2;
  Ok (concat [updated.1; final]).

(** ** The two routes *)

(** [req.file] as multer's memory storage leaves it. *)
Record file : Type := {
  originalname : jsstring;
  buffer : Buffer;
  mimetype : jsstring
}.

Inductive log_line : Type :=
| log_decrypt_req (id : option jsstring) (hasSecret : bool)
| log_error (label : string) (e : exn).

(** The process: the storage directory (file name to contents), the random
    source and what was written to the console.  A stored file is looked up
    by the id as given; ids that name a path outside the directory are not
    modelled. *)
Record server : Type := {
  storage : gmap jsstring Buffer;
  random : rng;
  console : list log_line
}.

Inductive response : Type :=
| res_error (status : N) (error : string)
| res_encrypted (id originalName : jsstring) (size : N)
| res_send (contentType contentDisposition : jsstring) (body : Buffer).

(** [!x] for a value that is a string or undefined. *)
Definition falsy (x : option jsstring) : bool :=
  match x with
  | None | Some [] => true
  | Some (_ :: _) => false
  end.

Definition console_log (l : log_line) (s : server) : server :=
  {| storage := storage s; random := random s; console := console s ++ [l] |}.

(** [app.post("/api/encrypt", ...)] *)
Definition api_encrypt (req_file : option file) (req_secret : option jsstring)
    (s : server) : response * server :=
  let secret := default [] req_secret in
  match req_file with
  | None => (res_error 400 "file and secret required", s)
  | Some f =>
      if falsy (Some secret) then (res_error 400 "file and secret required", s)
      else
        let '(enc, g) := encryptBuffer (buffer f) secret (random s) in
        let s := {| storage := storage s; random := g; console := console s |} in
        match (do enc <- enc; serializeBlob enc (originalname f) (mimetype f)) with
        | Ok blob =>
            let '(uuid, g) := randomUUID (random s) in
            let id := uuid ++ js ".bin" in
            (res_encrypted id (originalname f) (blen (buffer f)),
             {| storage := <[id := blob]> (storage s); random := g;
                console := console s |})
        | Throw e =>
            (res_error 500 "encryption failed",
             console_log (log_error "encrypt error:" e) s)
        end
  end.

(** Header values may hold a tab, printable ASCII and the bytes 128 to 255. *)
Definition valid_header_value (v : jsstring) : bool :=
  forallb (fun c => (c =? 9) || ((32 <=? c) && (c <=? 126))
                    || ((128 <=? c) && (c <=? 255))) v.

(** [res.setHeader(name, value)] *)
Definition setHeader (v : jsstring) : result jsstring :=
  if valid_header_value v then Ok v else Throw (TypeError "ERR_INVALID_CHAR").

(** [app.post("/api/decrypt", ...)] *)
Definition api_decrypt (req_id req_secret : option jsstring) (s : server)
  : response * server :=
  let s := console_log (log_decrypt_req req_id (negb (falsy req_secret))) s in
  if falsy req_id || falsy req_secret then
    (res_error 400 "id and secret required", s)
  else
    let id := default [] req_id in
    let secret := default [] req_secret in
    match storage s !! id with
    | None => (res_error 404 "not found", s)
    | Some blob =>
        match (do f <- deserializeBlob blob;
               do plain <- decryptBuffer
                   {| ciphertext := f_ciphertext f; iv := f_iv f;
                      authTag := f_authTag f; salt := f_salt f |} secret;
               do ctype <- setHeader
                   (or_else (f_mime f) (js "application/octet-stream"));
               do disp <- setHeader
                   (js "inline; filename=" ++ [34]
                      ++ or_else (f_name f) (js "file") ++ [34]);
               Ok (res_send ctype disp plain)) with
        | Ok res => (res, s)
        | Throw e =>
            (res_error 400 "decryption failed (wrong secret or corrupt data)",
             console_log (log_error "decrypt error:" e) s)
        end
    end.

End Codec.

(** ** The contract of AES-256-GCM *)

(** One encryption as [encryptBuffer] performs it: create, [update], [final],
    [getAuthTag]; the result is the ciphertext and the tag. *)
Definition gcm_encrypt {C : NodeCrypto} (key nonce buf : Buffer)
  : result (Buffer * Buffer) :=
  do cipher <- createCipheriv "aes-256-gcm" key nonce;
  do updated <- cipher_update cipher buf;
  do final <- cipher_final updated.2;
  do tag <- getAuthTag final.2;
  Ok (updated.1 ++ final.1, tag).

(** One decryption as [decryptBuffer] performs it: create, [setAuthTag],
    [update], [final]; [final] throws when the tag does not verify. *)
Definition gcm_decrypt {C : NodeCrypto} (key nonce tag ct : Buffer)
  : result Buffer :=
  do decipher <- createDecipheriv "aes-256-gcm" key nonce;
  do decipher <- setAuthTag decipher tag;
  do updated <- decipher_update decipher ct;
  do final <- decipher_final updated.2;
  Ok (updated.1 ++ final).

(** What the server relies on: the sizes of the generated values, and that
    decryption undoes encryption under the same key and nonce. *)
Record NodeCryptoSpec (C : NodeCrypto) : Prop := {
  randomBytes_length : forall n g, blen (randomBytes n g).1 = n;
  scryptSync_length : forall secret salt, blen (scryptSync secret salt 32) = 32;
  gcm_encrypt_ok : forall key nonce buf,
    blen key = 32 -> blen nonce = 12 ->
    exists ct tag, gcm_encrypt key nonce buf = Ok (ct, tag)
                   /\ blen ct = blen buf /\ blen tag = 16;
  gcm_decrypt_encrypt : forall key nonce buf ct tag,
    blen key = 32 -> blen nonce = 12 ->
    gcm_encrypt key nonce buf = Ok (ct, tag) ->
    gcm_decrypt key nonce tag ct = Ok buf
}.

(** ** The page script *)

Module Script.

(** What [decryptedView] shows. *)
Inductive view : Type :=
| view_text (text : jsstring)     (* plain text content *)
| view_img (body : Buffer)        (* an [img] on the object URL of the body *)
| view_object (body : Buffer)     (* a PDF [object] on the object URL *)
| view_pre (body : Buffer)        (* a [pre] holding the body's text *)
| view_link (body : Buffer).      (* a download link to the object URL *)

(** The page: the two Web Storage areas and the form fields and text nodes
    the handlers read or write. *)
Record page : Type := {
  localStorage : gmap string jsstring;
  sessionStorage : gmap string jsstring;
  fileInput : option (jsstring * Buffer);  (* name and contents of [files[0]] *)
  secretInput : jsstring;
  decryptId : jsstring;
  decryptSecret : jsstring;
  statusDiv : jsstring;
  footerId : option jsstring;              (* the id drawn by [showEncryptedId] *)
  decryptedView : view
}.

(** How [await fetch(...)] followed by [await res.json()] ends. *)
Inductive fetched : Type :=
| fetch_rejected                           (* either promise rejects *)
| fetch_json (ok : bool) (id : jsstring).  (* [res.ok] and [data.id] *)

Definition set_session (k : string) (v : jsstring) (p : page) : page :=
  {| localStorage := localStorage p;
     sessionStorage := <[k := v]> (sessionStorage p);
     fileInput := fileInput p; secretInput := secretInput p;
     decryptId := decryptId p; decryptSecret := decryptSecret p;
     statusDiv := statusDiv p; footerId := footerId p;
     decryptedView := decryptedView p |}.

Definition set_status (v : jsstring) (p : page) : page :=
  {| localStorage := localStorage p; sessionStorage := sessionStorage p;
     fileInput := fileInput p; secretInput := secretInput p;
     decryptId := decryptId p; decryptSecret := decryptSecret p;
     statusDiv := v; footerId := footerId p;
     decryptedView := decryptedView p |}.

(** The body of the [try] block after a successful reply; the storage area is
    taken to have room for the two entries. *)
Definition remember (id secret : jsstring) (p : page) : page :=
  {| localStorage :=
       <["lastSecret"%string := secret]>
         (<["lastCipherId"%string := id]> (localStorage p));
     sessionStorage := sessionStorage p;
     fileInput := fileInput p; secretInput := secretInput p;
     decryptId := id; decryptSecret := secret;
     statusDiv := []; footerId := Some id;
     decryptedView := decryptedView p |}.

(** [encryptBtn.addEventListener("click", ...)] *)
Definition encryptBtn_click (reply : fetched) (p : page) : page :=
  let secret := secretInput p in
  match fileInput p, secret with
  | None, _ | _, [] => set_status (js "Choose file and enter secret") p
  | Some _, _ :: _ =>
      let p := set_session "encrypting" (js "1") p in
      let p := set_status (js "Encrypting & uploading...") p in
      let p :=
        match reply with
        | fetch_json true id => remember id secret p
        | _ => set_status (js "Encryption failed") p
        end in
      set_session "encrypting" (js "0") p
  end.

(** [addEventListener("DOMContentLoaded", ...)] *)
Definition on_DOMContentLoaded (p : page) : page :=
  let p :=
    match localStorage p !! "lastCipherId"%string with
    | Some (c :: lastId) =>
        {| localStorage := localStorage p; sessionStorage := sessionStorage p;
           fileInput := fileInput p; secretInput := secretInput p;
           decryptId := c :: lastId; decryptSecret := decryptSecret p;
           statusDiv := statusDiv p; footerId := footerId p;
     decryptedView := decryptedView p |}
    | _ => p
    end in
  match localStorage p !! "lastSecret"%string with
  | Some (c :: lastSecret) =>
      {| localStorage := localStorage p; sessionStorage := sessionStorage p;
         fileInput := fileInput p; secretInput := secretInput p;
         decryptId := decryptId p; decryptSecret := c :: lastSecret;
         statusDiv := statusDiv p; footerId := footerId p;
     decryptedView := decryptedView p |}
  | _ => p
  end.

(** How the [fetch] of [/api/decrypt] ends: a rejection, a body with its
    [Content-Type] header, or an error reply with its [error] field (absent
    when the reply is not JSON). *)
Inductive downloaded : Type :=
| download_rejected
| download_ok (contentType : option jsstring) (body : Buffer)
| download_error (error : option jsstring).

(** [s.startsWith(prefix)] *)
Fixpoint startsWith (prefix s : jsstring) : bool :=
  match prefix, s with
  | [], _ => true
  | c :: prefix', d :: s' => (c =? d) && startsWith prefix' s'
  | _ :: _, [] => false
  end.

Definition set_view (v : view) (p : page) : page :=
  {| localStorage := localStorage p; sessionStorage := sessionStorage p;
     fileInput := fileInput p; secretInput := secretInput p;
     decryptId := decryptId p; decryptSecret := decryptSecret p;
     statusDiv := statusDiv p; footerId := footerId p;
     decryptedView := v |}.

(** [decryptBtn.addEventListener("click", ...)] *)
Definition decryptBtn_click (reply : downloaded) (p : page) : page :=
  let p := set_view (view_text (js "Decrypting...")) p in
  match reply with
  | download_ok contentType body =>
      let mime :=
        or_else (default [] contentType) (js "application/octet-stream") in
      if startsWith (js "image/") mime then set_view (view_img body) p
      else if bool_decide (mime = js "application/pdf") then
        set_view (view_object body) p
      else if startsWith (js "text/") mime then set_view (view_pre body) p
      else set_view (view_link body) p
  | download_error error =>
      set_view (view_text (or_else (default [] error) (js "Decryption failed"))) p
  | download_rejected => set_view (view_text (js "Decryption error")) p
  end.

(** [addEventListener("beforeunload", ...)]: whether leaving is held back. *)
Definition beforeunload_prevented (p : page) : bool :=
  bool_decide (sessionStorage p !! "encrypting"%string = Some (js "1")).

End Script.

Import Script.

(** ** A small instance of the crypto interface

    A keyed additive stream with a keyed checksum as tag, behind the same
    object interface.  It is no cipher; it shows that the contract
    [NodeCryptoSpec] can be met and lets the codec be run on concrete inputs. *)

Module RefCrypto.

Definition bsum (buf : Buffer) : N :=
  foldr (fun b acc => Byte.to_N b + acc) 0 buf.

Definition pad (key nonce : Buffer) (i : N) : N :=
  (bsum key + 3 * bsum nonce + i) mod 256.

Fixpoint mask (key nonce : Buffer) (i : N) (buf : Buffer) : Buffer :=
  match buf with
  | [] => []
  | b :: rest =>
      byte_of_N (Byte.to_N b + pad key nonce i) :: mask key nonce (i + 1) rest
  end.

Fixpoint unmask (key nonce : Buffer) (i : N) (buf : Buffer) : Buffer :=
  match buf with
  | [] => []
  | b :: rest =>
      byte_of_N (Byte.to_N b + 256 - pad key nonce i)
        :: unmask key nonce (i + 1) rest
  end.

(** The tag over a ciphertext whose bytes sum to [sum]. *)
Definition tag_of (key nonce : Buffer) (sum : N) : Buffer :=
  map (fun j => byte_of_N (7 * bsum key + bsum nonce + 5 * sum + N.of_nat j))
      (seq 0 16).

Definition usable (algorithm : string) (key nonce : Buffer) : bool :=
  bool_decide (algorithm = "aes-256-gcm") && (blen key =? 32)
  && negb (blen nonce =? 0).

(** The state of a cipher or decipher object: its key and nonce, how many
    bytes went through it and the sum of the ciphertext bytes so far; for a
    cipher whether [final] was called, for a decipher the tag to verify. *)
Record stream : Type := {
  s_key : Buffer;
  s_nonce : Buffer;
  s_pos : N;
  s_sum : N;
  s_final : bool;
  s_tag : option Buffer
}.

Definition create (algorithm : string) (key nonce : Buffer) : result stream :=
  if usable algorithm key nonce then
    Ok {| s_key := key; s_nonce := nonce; s_pos := 0; s_sum := 0;
          s_final := false; s_tag := None |}
  else Throw (RangeError "Invalid key length").

Definition advance (st : stream) (ct : Buffer) : stream :=
  {| s_key := s_key st; s_nonce := s_nonce st;
     s_pos := s_pos st + blen ct; s_sum := s_sum st + bsum ct;
     s_final := s_final st; s_tag := s_tag st |}.

Definition encrypt_update (st : stream) (buf : Buffer) : result (Buffer * stream) :=
  if s_final st then Throw (Error "ERR_CRYPTO_INVALID_STATE")
  else
    let ct := mask (s_key st) (s_nonce st) (s_pos st) buf in
    Ok (ct, advance st ct).

Definition encrypt_final (st : stream) : result (Buffer * stream) :=
  if s_final st then Throw (Error "ERR_CRYPTO_INVALID_STATE")
  else
    Ok ([], {| s_key := s_key st; s_nonce := s_nonce st; s_pos := s_pos st;
               s_sum := s_sum st; s_final := true; s_tag := s_tag st |}).

Definition auth_tag (st : stream) : result Buffer :=
  if s_final st then Ok (tag_of (s_key st) (s_nonce st) (s_sum st))
  else Throw (Error "ERR_CRYPTO_INVALID_STATE").

Definition set_tag (st : stream) (tag : Buffer) : result stream :=
  Ok {| s_key := s_key st; s_nonce := s_nonce st; s_pos := s_pos st;
        s_sum := s_sum st; s_final := s_final st; s_tag := Some tag |}.

Definition decrypt_update (st : stream) (ct : Buffer) : result (Buffer * stream) :=
  Ok (unmask (s_key st) (s_nonce st) (s_pos st) ct, advance st ct).

Definition decrypt_final (st : stream) : result Buffer :=
  match s_tag st with
  | Some tag =>
      if decide (map Byte.to_N tag
                 = map Byte.to_N (tag_of (s_key st) (s_nonce st) (s_sum st)))
      then Ok []
      else Throw (Error "Unsupported state or unable to authenticate data")
  | None => Throw (Error "Unsupported state or unable to authenticate data")
  end.

Definition stretch (secret : jsstring) (salt : Buffer) (keylen : N) : Buffer :=
  let h := foldr N.add 0 secret + 11 * bsum salt in
  map (fun i => byte_of_N (h + 13 * N.of_nat i)) (seq 0 (N.to_nat keylen)).

Definition draw (n : N) (g : N) : Buffer * N :=
  (map (fun i => byte_of_N (17 * g + 29 * N.of_nat i + 3)) (seq 0 (N.to_nat n)),
   g + n).

Definition uuid (g : N) : jsstring * N :=
  (js "file-" ++ [97 + g mod 26], g + 1).

#[export] Instance crypto : NodeCrypto := {|
  rng := N;
  randomBytes := draw;
  randomUUID := uuid;
  scryptSync := stretch;
  Cipher := stream;
  createCipheriv := create;
  cipher_update := encrypt_update;
  cipher_final := encrypt_final;
  getAuthTag := auth_tag;
  Decipher := stream;
  createDecipheriv := create;
  setAuthTag := set_tag;
  decipher_update := decrypt_update;
  decipher_final := decrypt_final
|}.

End RefCrypto.

(** ** The blob layout, as the format is documented

    [salt(16) | iv(12) | tag(16) | nameLen(4, LE) | name | mimeLen(4, LE) | mime
    | ciphertext].  These definitions are the format's description; the
    properties below compare them with what the routes compute. *)

(** The little-endian bytes of a 32-bit value, least significant first. *)
Definition le32 (n : N) : Buffer :=
  [byte_of_N (n mod 256); byte_of_N (n / 256 mod 256);
   byte_of_N (n / 65536 mod 256); byte_of_N (n / 16777216)].

Definition header_layout (salt iv tag name mime : Buffer) : Buffer :=
  salt ++ iv ++ tag ++ le32 (blen name) ++ name ++ le32 (blen mime) ++ mime.

Definition blob_layout (salt iv tag name mime ct : Buffer) : Buffer :=
  header_layout salt iv tag name mime ++ ct.

(** The five ways a parse can end, with the condition for each. *)
Inductive parse_outcome (blob : Buffer) : result frame -> Prop :=
| parse_short_fixed :
    blen blob < 48 ->
    parse_outcome blob (Throw (Error "truncated header"))
| parse_short_name nameLen :
    48 <= blen blob -> readUInt32LE blob 44 = Ok nameLen ->
    blen blob < 48 + nameLen + 4 ->
    parse_outcome blob (Throw (Error "truncated header"))
| parse_short_mime nameLen mimeLen :
    readUInt32LE blob 44 = Ok nameLen ->
    48 + nameLen + 4 <= blen blob ->
    readUInt32LE blob (48 + nameLen) = Ok mimeLen ->
    blen blob < 48 + nameLen + 4 + mimeLen ->
    parse_outcome blob (Throw (Error "truncated header"))
| parse_no_ciphertext nameLen mimeLen :
    readUInt32LE blob 44 = Ok nameLen ->
    readUInt32LE blob (48 + nameLen) = Ok mimeLen ->
    blen blob = 48 + nameLen + 4 + mimeLen ->
    parse_outcome blob (Throw (Error "missing ciphertext"))
| parse_done nameLen mimeLen :
    readUInt32LE blob 44 = Ok nameLen ->
    readUInt32LE blob (48 + nameLen) = Ok mimeLen ->
    48 + nameLen + 4 + mimeLen < blen blob ->
    parse_outcome blob
      (Ok {| f_salt := subarray blob 0 16;
             f_iv := subarray blob 16 28;
             f_authTag := subarray blob 28 44;
             f_name := toString_utf8 (subarray blob 48 (48 + nameLen));
             f_mime := toString_utf8
                         (subarray blob (48 + nameLen + 4)
                                        (48 + nameLen + 4 + mimeLen));
             f_ciphertext := subarray_from blob (48 + nameLen + 4 + mimeLen) |}).

(** ** Sample values *)

(** A payload of the fixed sizes around a given ciphertext. *)
Definition sample_payload (ct : Buffer) : payload :=
  {| ciphertext := ct;
     iv := repeat "002"%byte 12;
     authTag := repeat "003"%byte 16;
     salt := repeat "001"%byte 16 |}.

(** A well-framed blob with a two-byte ciphertext. *)
Definition sample_blob : Buffer :=
  blob_layout (repeat "001"%byte 16) (repeat "002"%byte 12)
    (repeat "003"%byte 16) (Buffer_from_utf8 (js "a.txt"))
    (Buffer_from_utf8 (js "text/plain")) ["104"; "105"]%byte.

(** A blob whose file name is the single byte 0xFF, which is not UTF-8. *)
Definition bad_name_blob : Buffer :=
  blob_layout (repeat "001"%byte 16) (repeat "002"%byte 12)
    (repeat "003"%byte 16) ["255"]%byte
    (Buffer_from_utf8 (js "text/plain")) ["104"; "105"]%byte.

(** A payload sealed by the reference instance under a 15-byte salt. *)
Definition short_salt_payload : payload :=
  let slt := repeat "001"%byte 15 in
  let nonce := repeat "002"%byte 12 in
  match gcm_encrypt (C := RefCrypto.crypto)
          (deriveKey (C := RefCrypto.crypto) (js "correct-horse") slt) nonce
          (Buffer_from_utf8 (js "hello world")) with
  | Ok sealed =>
      {| ciphertext := sealed.1; iv := nonce; authTag := sealed.2; salt := slt |}
  | Throw _ => {| ciphertext := []; iv := nonce; authTag := []; salt := slt |}
  end.

(** A blob that declares a 1000-byte name and holds 5 more bytes. *)
Definition overlong_name_blob : Buffer :=
  repeat "000"%byte 44 ++ le32 1000 ++ repeat "001"%byte 5.

(** A page with a file chosen and a passphrase typed. *)
Definition sample_page : page :=
  {| localStorage := ∅; sessionStorage := ∅;
     fileInput := Some (js "note.txt", Buffer_from_utf8 (js "hello world"));
     secretInput := js "hunter2";
     decryptId := []; decryptSecret := []; statusDiv := [];
     footerId := None; decryptedView := view_text [] |}.

(** A server with nothing stored, and an empty upload. *)
Definition empty_server : server (C := RefCrypto.crypto) :=
  @Build_server RefCrypto.crypto ∅ 5 [].

Definition empty_upload : file :=
  {| originalname := js "empty.txt"; buffer := []; mimetype := js "text/plain" |}.

(** ** The page script, continued *)

(** The click handler up to [await fetch(...)]: the page it leaves behind and,
    when the upload is started, the passphrase it has read. *)
Definition encryptBtn_click_begin (p : page) : page * option jsstring :=
  let secret := secretInput p in
  match fileInput p, secret with
  | None, _ | _, [] => (set_status (js "Choose file and enter secret") p, None)
  | Some _, _ :: _ =>
      let p := set_session "encrypting" (js "1") p in
      (set_status (js "Encrypting & uploading...") p, Some secret)
  end.

(** The rest of the handler, run when the reply is there, on the page as it
    is by then. *)
Definition encryptBtn_click_resume (secret : jsstring) (reply : fetched)
    (p : page) : page :=
  let p :=
    match reply with
    | fetch_json true id => remember id secret p
    | _ => set_status (js "Encryption failed") p
    end in
  set_session "encrypting" (js "0") p.









(** ** More sample values *)

(** A small text file as multer hands it over. *)
Definition sample_upload : file :=
  {| originalname := js "note.txt";
     buffer := Buffer_from_utf8 (js "hello world");
     mimetype := js "text/plain" |}.

(** The same file under a name that holds a line feed. *)
Definition unsafe_name_upload : file :=
  {| originalname := js "note" ++ [10] ++ js ".txt";
     buffer := Buffer_from_utf8 (js "hello world");
     mimetype := js "text/plain" |}.

(** ** The preview area of the page

    [el], [ensurePreviewScaffold], [previewFile] and [showEncryptedId] of
    [frontend/script.js] work on the DOM tree under [previewDiv].  The tree is
    modelled with the identity of every element, because the script keeps
    references to elements ([content], [footer], [copyBtn]) and changes them
    later, also from a reader's [onload], a click listener and a timer.  A
    change through a reference to an element that is no longer in the tree
    does not show in the tree.  What the browser does with the tree (layout,
    loading an object URL, reading a file) is outside the model; the text a
    [FileReader] hands over and the outcome of a clipboard write are inputs. *)

(** A [File] of the file input. *)
Record browser_file : Type := {
  file_name : jsstring;
  file_type : jsstring;
  file_body : Buffer
}.

(** A value assigned to a property of an element: a string, or the URL that
    [URL.createObjectURL(file)] made for a file. *)
Inductive prop_value : Type :=
| prop_string (s : jsstring)
| prop_object_url (f : browser_file).

#[local] Unset Elimination Schemes.

(** A DOM node.  An element carries the identity [document.createElement]
    gave it, so that a reference to it stays meaningful while the tree around
    it changes. *)
Inductive node : Type :=
| Text (data : jsstring)
| Element (uid : nat) (tag : string) (className : jsstring)
    (props : list (string * prop_value)) (children : list node).

#[local] Set Elimination Schemes.

(** An argument in the [children] array of [el]. *)
Inductive child : Type :=
| child_string (s : jsstring)
| child_node (n : node).

Definition is_ascii_space (c : N) : bool :=
  (c =? 9) || (c =? 10) || (c =? 12) || (c =? 13) || (c =? 32).

(** The class list of a [className]: its tokens between white space.  [cur]
    is the token being read, last character first. *)
Fixpoint class_list_from (cur : jsstring) (s : jsstring) : list jsstring :=
  match s with
  | [] => match cur with [] => [] | _ => [rev cur] end
  | c :: rest =>
      if is_ascii_space c then
        match cur with
        | [] => class_list_from [] rest
        | _ => rev cur :: class_list_from [] rest
        end
      else class_list_from (c :: cur) rest
  end.

Definition has_class (cls className : jsstring) : bool :=
  existsb (fun t => bool_decide (t = cls)) (class_list_from [] className).

(** The first element with the class among a node and its descendants, in
    document order; class names are compared exactly, as in a document that
    is not in quirks mode. *)
Fixpoint first_with_class (cls : jsstring) (n : node) : option nat :=
  match n with
  | Text _ => None
  | Element uid _ className _ children =>
      if has_class cls className then Some uid
      else
        (fix among (l : list node) : option nat :=
           match l with
           | [] => None
           | k :: l' =>
               match first_with_class cls k with
               | Some u => Some u
               | None => among l'
               end
           end) children
  end.

Definition first_among (cls : jsstring) (l : list node) : option nat :=
  (fix among (l : list node) : option nat :=
     match l with
     | [] => None
     | k :: l' =>
         match first_with_class cls k with
         | Some u => Some u
         | None => among l'
         end
     end) l.

(** [container.querySelector("." + cls)]: a reference to the first descendant
    with the class. *)
Definition querySelector (cls : jsstring) (container : node) : option nat :=
  match container with
  | Text _ => None
  | Element _ _ _ _ children => first_among cls children
  end.

(** A change made through a reference: it reaches the element with that
    identity if it is in the tree, and nothing otherwise. *)
Fixpoint update (uid : nat) (f : node -> node) (n : node) : node :=
  match n with
  | Text _ => n
  | Element uid' tag className props children =>
      if Nat.eqb uid uid' then f n
      else Element uid' tag className props (map (update uid f) children)
  end.

(** [n.appendChild(c)] for a node [c] that is not in a tree yet, which is how
    the script uses it: every node it appends was just made by [el]. *)
Definition appendChild (c : node) (n : node) : node :=
  match n with
  | Text _ => n
  | Element uid tag className props children =>
      Element uid tag className props (children ++ [c])
  end.

(** [n.innerHTML = ""] *)
Definition clear (n : node) : node :=
  match n with
  | Text _ => n
  | Element uid tag className props _ => Element uid tag className props []
  end.

(** The children [n.textContent = s] leaves: one text node, or none when [s]
    is empty. *)
Definition text_children (s : jsstring) : list node :=
  match s with
  | [] => []
  | _ => [Text s]
  end.

(** [n[key] = value] *)
Definition assign (key : string) (value : prop_value) (n : node) : node :=
  match n with
  | Text _ => n
  | Element uid tag className props children =>
      match value with
      | prop_string s =>
          if bool_decide (key = "className") then
            Element uid tag s props children
          else if bool_decide (key = "textContent") then
            Element uid tag className props (text_children s)
          else Element uid tag className (props ++ [(key, value)]) children
      | prop_object_url _ =>
          Element uid tag className (props ++ [(key, value)]) children
      end
  end.

(** [function el(tag, props = {}, children = [])]; [next] is the identity the
    next created element gets. *)
Definition el (tag : string) (props : list (string * prop_value))
    (children : list child) (next : nat) : node * nat :=
  let n := Element next tag [] [] [] in
  let n := foldl (fun n kv => assign kv.1 kv.2 n) n props in
  let n :=
    foldl (fun n c =>
             appendChild (match c with
                          | child_string s => Text s
                          | child_node k => k
                          end) n) n children in
  (n, S next).

Definition uid_of (n : node) : nat :=
  match n with
  | Text _ => O
  | Element uid _ _ _ _ => uid
  end.

(** [function ensurePreviewScaffold(container)]: the container as it is left,
    the next free identity, and the references [content] and [footer]. *)
Definition ensurePreviewScaffold (container : node) (next : nat)
  : node * nat * nat * nat :=
  let content := querySelector (js "preview-content") container in
  let footer := querySelector (js "preview-footer") container in
  let '(container, next, content) :=
    match content with
    | None =>
        let '(c, next) :=
          el "div" [("className"%string, prop_string (js "preview-content"))] []
             next in
        (appendChild c container, next, uid_of c)
    | Some content => (update content clear container, next, content)
    end in
  let '(container, next, footer) :=
    match footer with
    | None =>
        let '(c, next) :=
          el "div" [("className"%string, prop_string (js "preview-footer"))] []
             next in
        (appendChild c container, next, uid_of c)
    | Some footer => (container, next, footer)
    end in
  (container, next, content, footer).

(** [function previewFile(file, container)]; the third component is the
    reference [content] that the [FileReader] started for a text file holds
    until it has loaded. *)
Definition previewFile (file : browser_file) (container : node) (next : nat)
  : node * nat * option nat :=
  let '(container, next, content, _) := ensurePreviewScaffold container next in
  let type := file_type file in
  if startsWith (js "image/") type then
    let '(img, next) := el "img" [] [] next in
    let img := assign "style.maxWidth" (prop_string (js "100%")) img in
    let img := assign "src" (prop_object_url file) img in
    (update content (appendChild img) container, next, None)
  else if bool_decide (type = js "application/pdf") then
    let '(obj, next) := el "object" [] [] next in
    let obj := assign "type" (prop_string (js "application/pdf")) obj in
    let obj := assign "data" (prop_object_url file) obj in
    let obj := assign "width" (prop_string (js "100%")) obj in
    let obj := assign "height" (prop_string (js "500")) obj in
    (update content (appendChild obj) container, next, None)
  else if startsWith (js "text/") type then (container, next, Some content)
  else
    let '(p, next) :=
      el "p"
         [("textContent"%string,
           prop_string (js "Selected file: " ++ file_name file ++ js " (" ++
                        or_else type (js "unknown") ++ js ")"))] [] next in
    (update content (appendChild p) container, next, None).

(** The preview area: the element [previewDiv] and the identity the next
    created element gets. *)
Record preview : Type := {
  previewDiv : node;
  next_uid : nat
}.

(** [reader.onload] of [previewFile], run when the text of the file has been
    read. *)
Definition reader_onload (content : nat) (result : jsstring) (d : preview)
  : preview :=
  let '(pre, next) :=
    el "pre" [("textContent"%string, prop_string result)] [] (next_uid d) in
  {| previewDiv := update content (appendChild pre) (previewDiv d);
     next_uid := next |}.

(** [fileInput.addEventListener("change", ...)] *)
Definition fileInput_change (f : option browser_file) (d : preview)
  : preview * option nat :=
  match f with
  | Some f =>
      let '(container, next, reading) :=
        previewFile f (previewDiv d) (next_uid d) in
      ({| previewDiv := container; next_uid := next |}, reading)
  | None => (d, None)
  end.

(** [function showEncryptedId(id)]; the second component is the reference
    [copyBtn] its click listener holds. *)
Definition showEncryptedId (id : jsstring) (d : preview) : preview * nat :=
  let '(container, next, _, footer) :=
    ensurePreviewScaffold (previewDiv d) (next_uid d) in
  let container := update footer clear container in
  let '(label, next) :=
    el "span" [("className"%string, prop_string (js "id-label"))]
       [child_string (js "Encrypted ID: ")] next in
  let container := update footer (appendChild label) container in
  let '(code, next) := el "code" [] [child_string id] next in
  let container := update footer (appendChild code) container in
  let '(copyBtn, next) :=
    el "button"
       [("className"%string, prop_string (js "copy-btn"));
        ("type"%string, prop_string (js "button"))]
       [child_string (js "Copy")] next in
  let '(space, next) := el "span" [] [child_string (js " ")] next in
  let container := update footer (appendChild space) container in
  let container := update footer (appendChild copyBtn) container in
  ({| previewDiv := container; next_uid := next |}, uid_of copyBtn).

(** The click listener of [copyBtn]; [written] tells whether
    [navigator.clipboard.writeText(id)] resolved. *)
Definition copyBtn_click (written : bool) (copyBtn : nat) (d : preview)
  : preview :=
  if written then
    {| previewDiv :=
         update copyBtn (assign "textContent" (prop_string (js "Copied")))
                (previewDiv d);
       next_uid := next_uid d |}
  else d.

(** The timer the listener sets, 1200 ms later. *)
Definition copyBtn_timeout (copyBtn : nat) (d : preview) : preview :=
  {| previewDiv :=
       update copyBtn (assign "textContent" (prop_string (js "Copy")))
              (previewDiv d);
     next_uid := next_uid d |}.

(** What the click listener of [encryptBtn] does to the preview area, with
    the reader it started and the copy button it made, if any. *)
Definition encryptBtn_click_preview (file : option browser_file)
    (secret : jsstring) (reply : fetched) (d : preview)
  : preview * option nat * option nat :=
  match file, secret with
  | None, _ | _, [] => (d, None, None)
  | Some f, _ :: _ =>
      let '(d, reading) :=
        match querySelector (js "preview-content") (previewDiv d) with
        | None => fileInput_change (Some f) d
        | Some _ => (d, None)
        end in
      match reply with
      | fetch_json true id =>
          let '(d, copyBtn) := showEncryptedId id d in
          (d, reading, Some copyBtn)
      | _ => (d, reading, None)
      end
  end.

(** ** Describing the preview area *)

(** The identities of the elements of a tree, in document order. *)
Fixpoint uids (n : node) : list nat :=
  match n with
  | Text _ => []
  | Element uid _ _ _ children => uid :: flat_map uids children
  end.

(** Distinct identities, all handed out already. *)
Definition well_formed (n : node) (next : nat) : Prop :=
  NoDup (uids n) /\ Forall (fun u => (u < next)%nat) (uids n).

(** Nodes among which [querySelector] finds neither part of the scaffold. *)
Definition ordinary (l : list node) : Prop :=
  first_among (js "preview-content") l = None /\
  first_among (js "preview-footer") l = None.

(** An element without its children. *)
Record shell : Type := {
  shell_uid : nat;
  shell_tag : string;
  shell_class : jsstring;
  shell_props : list (string * prop_value)
}.

Definition fill (s : shell) (children : list node) : node :=
  Element (shell_uid s) (shell_tag s) (shell_class s) (shell_props s) children.

(** A container that holds the scaffold, without the children of the content
    and footer elements. *)
Record holder : Type := {
  outer : shell;
  before : list node;
  content : shell;
  between : list node;
  footer : shell;
  after : list node
}.

Definition scaffold (F : holder) (preview id_line : list node) : node :=
  fill (outer F)
       (before F ++ fill (content F) preview ::
        between F ++ fill (footer F) id_line :: after F).

Definition holder_ok (F : holder) : Prop :=
  ordinary (before F) /\ ordinary (between F) /\
  has_class (js "preview-content") (shell_class (content F)) = true /\
  has_class (js "preview-footer") (shell_class (content F)) = false /\
  has_class (js "preview-footer") (shell_class (footer F)) = true.

(** The element [el("div", { className })] makes. *)
Definition div_shell (uid : nat) (className : jsstring) : shell :=
  {| shell_uid := uid; shell_tag := "div"; shell_class := className;
     shell_props := [] |}.

(** The holder [ensurePreviewScaffold] builds around the children [l] of a
    container that had no scaffold. *)
Definition new_holder (s : shell) (l : list node) (next : nat) : holder :=
  {| outer := s; before := l;
     content := div_shell next (js "preview-content"); between := [];
     footer := div_shell (S next) (js "preview-footer"); after := [] |}.

(** The identities of a holder's own elements. *)
Definition holder_uids (F : holder) : list nat :=
  shell_uid (outer F) :: shell_uid (content F) :: shell_uid (footer F) ::
  flat_map uids (before F) ++ flat_map uids (between F) ++
  flat_map uids (after F).

(** The states of the preview container the script's own calls lead to: no
    scaffold yet, or the scaffold once, with a preview that holds no footer. *)
Inductive preview_area : node -> Prop :=
| area_plain s l : ordinary l -> preview_area (fill s l)
| area_scaffold F ck fk :
    holder_ok F -> first_among (js "preview-footer") ck = None ->
    preview_area (scaffold F ck fk).

(** The children [showEncryptedId] gives the footer, with the label the copy
    button shows. *)
Definition id_line_labelled (label id : jsstring) (next : nat) : list node :=
  [Element next "span" (js "id-label") [] [Text (js "Encrypted ID: ")];
   Element (S next) "code" [] [] [Text id];
   Element (S (S (S next))) "span" [] [] [Text (js " ")];
   Element (S (S next)) "button" (js "copy-btn")
     [("type"%string, prop_string (js "button"))] [Text label]].

Definition id_line (id : jsstring) (next : nat) : list node :=
  id_line_labelled (js "Copy") id next.

(** ** Sample preview areas *)

(** The preview container of a page that has no scaffold yet. *)
Definition sample_box : shell :=
  {| shell_uid := 0; shell_tag := "div"; shell_class := [];
     shell_props := [("id"%string, prop_string (js "preview"))] |}.

(** The same container once the scaffold is built. *)
Definition sample_holder : holder := new_holder sample_box [] 1.

Definition sample_image : browser_file :=
  {| file_name := js "a.png"; file_type := js "image/png";
     file_body := map byte_of_N [137; 80; 78; 71] |}.

Definition sample_text : browser_file :=
  {| file_name := js "note.txt"; file_type := js "text/plain";
     file_body := Buffer_from_utf8 (js "hello world") |}.

(** The preview of [sample_image]. *)
Definition sample_img : node :=
  Element 3 "img" []
    [("style.maxWidth"%string, prop_string (js "100%"));
     ("src"%string, prop_object_url sample_image)] [].

(** A scaffolded preview area that shows the image. *)
Definition sample_preview : preview :=
  {| previewDiv := scaffold sample_holder [sample_img] []; next_uid := 4 |}.

(** * Properties *)

(** ** Bytes and buffers *)

(** [lia] is to handle division and remainder by constants. *)
Ltac Zify.zify_post_hook ::= Z.to_euclidean_division_equations.

Lemma to_N_byte_of_N (n : N) : Byte.to_N (byte_of_N n) = n mod 256.
Proof.
  unfold byte_of_N. destruct (Byte.of_N (n mod 256)) as [b|] eqn:E.
  - by apply Byte.to_of_N.
  - apply Byte.of_N_None_iff in E. lia.
Qed.

Lemma to_N_byte_of_N_small (n : N) : n < 256 -> Byte.to_N (byte_of_N n) = n.
Proof. intros Hn. rewrite to_N_byte_of_N. lia. Qed.

Lemma blen_app (a b : Buffer) : blen (a ++ b) = blen a + blen b.
Proof. unfold blen. rewrite length_app. lia. Qed.

Lemma blen_nil_inv (a : Buffer) : blen a = 0 -> a = [].
Proof. destruct a; [done|]. unfold blen; simpl; lia. Qed.

Lemma subarray_from_app (pre rest : Buffer) :
  subarray_from (pre ++ rest) (blen pre) = rest.
Proof. unfold subarray_from, blen. rewrite Nat2N.id. apply drop_app_length. Qed.

Lemma subarray_app (pre x post : Buffer) (s e : N) :
  s = blen pre -> e = s + blen x -> subarray (pre ++ x ++ post) s e = x.
Proof.
  intros -> ->. unfold subarray, blen.
  rewrite Nat2N.id, drop_app_length.
  replace (N.to_nat _) with (length x) by lia.
  apply take_app_length.
Qed.

Lemma writeUInt32LE_le32 (n : N) :
  n < 2 ^ 32 -> writeUInt32LE n = Ok (le32 n).
Proof.
  intros Hn. unfold writeUInt32LE, le32.
  change (2 ^ 32) with 4294967296 in Hn.
  destruct (N.leb_spec n 4294967295); [|lia].
  rewrite !N.shiftr_div_pow2. f_equal.
  change (2 ^ 8) with 256. change (2 ^ 16) with 65536.
  change (2 ^ 24) with 16777216.
  unfold byte_of_N. rewrite !N.Div0.mod_mod. done.
Qed.

Lemma writeUInt32LE_range (n : N) :
  2 ^ 32 <= n -> writeUInt32LE n = Throw (RangeError "ERR_OUT_OF_RANGE").
Proof.
  intros Hn. unfold writeUInt32LE. change (2 ^ 32) with 4294967296 in Hn.
  destruct (N.leb_spec n 4294967295); [lia|done].
Qed.

Lemma readUInt32LE_le32 (pre post : Buffer) (n off : N) :
  n < 2 ^ 32 -> off = blen pre ->
  readUInt32LE (pre ++ le32 n ++ post) off = Ok n.
Proof.
  intros Hn ->. unfold readUInt32LE, blen.
  rewrite Nat2N.id, drop_app_length. simpl.
  rewrite !to_N_byte_of_N. f_equal.
  change (2 ^ 32) with 4294967296 in Hn.
  change (2 ^ 8) with 256. change (2 ^ 16) with 65536.
  change (2 ^ 24) with 16777216. lia.
Qed.

Lemma readUInt32LE_in_range (buf : Buffer) (off : N) :
  off + 4 <= blen buf -> exists n, readUInt32LE buf off = Ok n /\ n < 2 ^ 32.
Proof.
  intros H. unfold readUInt32LE.
  assert (Hl : (N.to_nat off + 4 <= length (drop (N.to_nat off) buf) + N.to_nat off)%nat).
  { rewrite length_drop. unfold blen in H. lia. }
  destruct (drop (N.to_nat off) buf) as [|b0 [|b1 [|b2 [|b3 r]]]];
    simpl in Hl; try lia.
  eexists; split; [done|].
  pose proof (Byte.to_N_bounded b0). pose proof (Byte.to_N_bounded b1).
  pose proof (Byte.to_N_bounded b2). pose proof (Byte.to_N_bounded b3).
  change (2 ^ 32) with 4294967296.
  change (2 ^ 8) with 256. change (2 ^ 16) with 65536.
  change (2 ^ 24) with 16777216. lia.
Qed.

(** ** The parser, unfolded *)

Lemma need_ok (blob : Buffer) (off n : N) :
  off + n <= blen blob -> need blob off n = Ok tt.
Proof. intros H. unfold need. destruct (N.ltb_spec (blen blob) (off + n)); [lia|done]. Qed.

Lemma need_throw (blob : Buffer) (off n : N) :
  blen blob < off + n -> need blob off n = Throw (Error "truncated header").
Proof. intros H. unfold need. destruct (N.ltb_spec (blen blob) (off + n)); [done|lia]. Qed.

Lemma deserializeBlob_unfold (blob : Buffer) :
  deserializeBlob blob =
    if blen blob <? 48 then Throw (Error "truncated header") else
    do nameLen <- readUInt32LE blob 44;
    if blen blob <? 48 + nameLen + 4 then Throw (Error "truncated header") else
    do mimeLen <- readUInt32LE blob (48 + nameLen);
    if blen blob <? 48 + nameLen + 4 + mimeLen
    then Throw (Error "truncated header") else
    let ct := subarray_from blob (48 + nameLen + 4 + mimeLen) in
    if blen ct =? 0 then Throw (Error "missing ciphertext") else
    Ok {| f_salt := subarray blob 0 16;
          f_iv := subarray blob 16 28;
          f_authTag := subarray blob 28 44;
          f_name := toString_utf8 (subarray blob 48 (48 + nameLen));
          f_mime := toString_utf8
                      (subarray blob (48 + nameLen + 4)
                                     (48 + nameLen + 4 + mimeLen));
          f_ciphertext := ct |}.
Proof.
  unfold deserializeBlob.
  change (0 + 16) with 16. change (16 + 12) with 28. change (28 + 16) with 44.
  change (44 + 4) with 48.
  destruct (N.ltb_spec (blen blob) 48) as [Hs|Hs].
  { destruct (N.ltb_spec (blen blob) 16).
    { by rewrite need_throw by lia. }
    rewrite need_ok by lia. simpl bind.
    destruct (N.ltb_spec (blen blob) 28).
    { by rewrite need_throw by lia. }
    rewrite need_ok by lia. simpl bind.
    destruct (N.ltb_spec (blen blob) 44).
    { by rewrite need_throw by lia. }
    rewrite need_ok by lia. simpl bind.
    by rewrite need_throw by lia. }
  rewrite !need_ok by lia. simpl bind.
  destruct (readUInt32LE blob 44) as [nameLen|e]; [|done]. simpl bind.
  destruct (N.ltb_spec (blen blob) (48 + nameLen + 4)) as [Hn|Hn].
  { destruct (N.ltb_spec (blen blob) (48 + nameLen)).
    { by rewrite need_throw by lia. }
    rewrite need_ok by lia. simpl bind.
    by rewrite need_throw by lia. }
  rewrite !need_ok by lia. simpl bind.
  destruct (readUInt32LE blob (48 + nameLen)) as [mimeLen|e]; [|done].
  simpl bind.
  destruct (N.ltb_spec (blen blob) (48 + nameLen + 4 + mimeLen)) as [Hm|Hm].
  { by rewrite need_throw by lia. }
  rewrite need_ok by lia. done.
Qed.

Lemma blen_le32 (n : N) : blen (le32 n) = 4.
Proof. done. Qed.

Lemma subarray_at (blob pre x post : Buffer) (s e : N) :
  blob = pre ++ x ++ post -> s = blen pre -> e = s + blen x ->
  subarray blob s e = x.
Proof. intros ->. apply subarray_app. Qed.

Lemma subarray_from_at (blob pre rest : Buffer) (s : N) :
  blob = pre ++ rest -> s = blen pre -> subarray_from blob s = rest.
Proof. intros -> ->. apply subarray_from_app. Qed.

Lemma readUInt32LE_at (blob pre post : Buffer) (n off : N) :
  blob = pre ++ le32 n ++ post -> n < 2 ^ 32 -> off = blen pre ->
  readUInt32LE blob off = Ok n.
Proof. intros ->. apply readUInt32LE_le32. Qed.

Ltac reassoc :=
  try match goal with |- ?b = _ => is_var b; unfold b end;
  unfold blob_layout, header_layout; rewrite <- ?app_assoc; reflexivity.
Ltac blen_solve :=
  rewrite ?blen_app, ?blen_le32; unfold blen in *; simpl length; lia.

Lemma blen_header_layout (salt iv tag name mime : Buffer) :
  blen (header_layout salt iv tag name mime)
  = blen salt + blen iv + blen tag + 4 + blen name + 4 + blen mime.
Proof. unfold header_layout. blen_solve. Qed.

(** Parsing a blob that has the documented layout. *)
Lemma deserializeBlob_layout (salt iv tag name mime ct : Buffer) :
  blen salt = 16 -> blen iv = 12 -> blen tag = 16 ->
  blen name < 2 ^ 32 -> blen mime < 2 ^ 32 ->
  deserializeBlob (blob_layout salt iv tag name mime ct) =
    if blen ct =? 0 then Throw (Error "missing ciphertext")
    else Ok {| f_salt := salt; f_iv := iv; f_authTag := tag;
               f_name := toString_utf8 name; f_mime := toString_utf8 mime;
               f_ciphertext := ct |}.
Proof.
  intros Hs Hi Ht Hn Hm. rewrite deserializeBlob_unfold.
  set (blob := blob_layout salt iv tag name mime ct).
  assert (Hlen : blen blob = 52 + blen name + blen mime + blen ct).
  { unfold blob, blob_layout. rewrite blen_app, blen_header_layout. lia. }
  destruct (N.ltb_spec (blen blob) 48); [lia|].
  rewrite (readUInt32LE_at blob (salt ++ iv ++ tag) (name ++ le32 (blen mime) ++ mime ++ ct) (blen name));
    [|reassoc|done|blen_solve].
  simpl bind.
  destruct (N.ltb_spec (blen blob) (48 + blen name + 4)); [lia|].
  rewrite (readUInt32LE_at blob (salt ++ iv ++ tag ++ le32 (blen name) ++ name) (mime ++ ct) (blen mime));
    [|reassoc|done|blen_solve].
  simpl bind.
  destruct (N.ltb_spec (blen blob) (48 + blen name + 4 + blen mime)); [lia|].
  cbv zeta.
  rewrite (subarray_from_at blob (header_layout salt iv tag name mime) ct);
    [|reassoc|rewrite blen_header_layout; lia].
  destruct (blen ct =? 0); [done|].
  f_equal. f_equal.
  - apply (subarray_at blob [] salt (iv ++ tag ++ le32 (blen name) ++ name ++ le32 (blen mime) ++ mime ++ ct));
      [reassoc|blen_solve|blen_solve].
  - apply (subarray_at blob salt iv (tag ++ le32 (blen name) ++ name ++ le32 (blen mime) ++ mime ++ ct));
      [reassoc|blen_solve|blen_solve].
  - apply (subarray_at blob (salt ++ iv) tag (le32 (blen name) ++ name ++ le32 (blen mime) ++ mime ++ ct));
      [reassoc|blen_solve|blen_solve].
  - f_equal.
    apply (subarray_at blob (salt ++ iv ++ tag ++ le32 (blen name)) name (le32 (blen mime) ++ mime ++ ct));
      [reassoc|blen_solve|blen_solve].
  - f_equal.
    apply (subarray_at blob (salt ++ iv ++ tag ++ le32 (blen name) ++ name ++ le32 (blen mime)) mime ct);
      [reassoc|blen_solve|blen_solve].
Qed.

(** ** The framer on its own *)

Lemma serializeBlob_layout (enc : payload) (name mime : jsstring) :
  blen (Buffer_from_utf8 name) < 2 ^ 32 ->
  blen (Buffer_from_utf8 (or_else mime (js "application/octet-stream"))) < 2 ^ 32 ->
  serializeBlob enc name mime =
    Ok (blob_layout (salt enc) (iv enc) (authTag enc) (Buffer_from_utf8 name)
          (Buffer_from_utf8 (or_else mime (js "application/octet-stream")))
          (ciphertext enc)).
Proof.
  intros Hn Hm. unfold serializeBlob.
  rewrite !writeUInt32LE_le32 by done. cbn [bind]. f_equal.
  unfold blob_layout, header_layout.
  rewrite !concat_cons, !concat_nil, !app_nil_r, <- ?app_assoc. reflexivity.
Qed.

Lemma serializeBlob_range (enc : payload) (name mime : jsstring) :
  2 ^ 32 <= blen (Buffer_from_utf8 name)
  \/ 2 ^ 32 <= blen (Buffer_from_utf8 (or_else mime (js "application/octet-stream"))) ->
  serializeBlob enc name mime = Throw (RangeError "ERR_OUT_OF_RANGE").
Proof.
  intros H. unfold serializeBlob.
  destruct (N.lt_ge_cases (blen (Buffer_from_utf8 name)) (2 ^ 32)) as [Hn|Hn].
  - destruct H as [H|H]; [lia|].
    rewrite (writeUInt32LE_le32 _ Hn). cbn [bind].
    by rewrite (writeUInt32LE_range _ H).
  - by rewrite (writeUInt32LE_range _ Hn).
Qed.

Lemma blen_take (k : nat) (b : Buffer) :
  (k <= length b)%nat -> blen (take k b) = N.of_nat k.
Proof. intros H. unfold blen. rewrite length_take. lia. Qed.

(** A prefix that stops inside the header is rejected as truncated. *)
Lemma deserializeBlob_short (salt iv tag name mime ct : Buffer) (k : nat) :
  blen salt = 16 -> blen iv = 12 -> blen tag = 16 ->
  blen name < 2 ^ 32 -> blen mime < 2 ^ 32 ->
  (k < length (header_layout salt iv tag name mime))%nat ->
  deserializeBlob (take k (blob_layout salt iv tag name mime ct))
  = Throw (Error "truncated header").
Proof.
  intros Hs Hi Ht Hn Hm Hk. rewrite deserializeBlob_unfold.
  pose proof (blen_header_layout salt iv tag name mime) as Hh.
  assert (Hlen : blen (take k (blob_layout salt iv tag name mime ct)) = N.of_nat k).
  { apply blen_take. unfold blob_layout. rewrite length_app. lia. }
  rewrite Hlen.
  destruct (N.ltb_spec (N.of_nat k) 48) as [H48|H48]; [done|].
  assert (Hpre : forall pre post : Buffer,
             blob_layout salt iv tag name mime ct = pre ++ post ->
             (length pre <= k)%nat ->
             take k (blob_layout salt iv tag name mime ct)
             = pre ++ take (k - length pre) post).
  { intros pre post -> Hle. by apply take_app_ge. }
  rewrite (readUInt32LE_at _ (salt ++ iv ++ tag)
             (take (k - 48) (name ++ le32 (blen mime) ++ mime ++ ct)) (blen name));
    [|idtac|done|blen_solve].
  2:{ rewrite (Hpre ((salt ++ iv ++ tag) ++ le32 (blen name))
                 (name ++ le32 (blen mime) ++ mime ++ ct)).
      - rewrite <- !app_assoc. do 4 f_equal.
        rewrite !length_app. unfold blen in *. simpl length. f_equal. lia.
      - reassoc.
      - rewrite !length_app. unfold blen in *. simpl length. lia. }
  cbn [bind].
  destruct (N.ltb_spec (N.of_nat k) (48 + blen name + 4)) as [Hk2|Hk2]; [done|].
  rewrite (readUInt32LE_at _ (salt ++ iv ++ tag ++ le32 (blen name) ++ name)
             (take (k - N.to_nat (52 + blen name)) (mime ++ ct)) (blen mime));
    [|idtac|done|blen_solve].
  2:{ rewrite (Hpre ((salt ++ iv ++ tag ++ le32 (blen name) ++ name) ++ le32 (blen mime))
                 (mime ++ ct)).
      - rewrite <- !app_assoc. do 6 f_equal.
        rewrite !length_app. unfold blen in *. simpl length. f_equal. lia.
      - reassoc.
      - rewrite !length_app. unfold blen in *. simpl length. lia. }
  cbn [bind].
  destruct (N.ltb_spec (N.of_nat k) (48 + blen name + 4 + blen mime)) as [Hk3|Hk3];
    [done|].
  unfold blen in *. lia.
Qed.

(** A prefix that keeps the whole header is a blob with a shorter ciphertext. *)
Lemma take_blob_layout (salt iv tag name mime ct : Buffer) (k : nat) :
  (length (header_layout salt iv tag name mime) <= k)%nat ->
  take k (blob_layout salt iv tag name mime ct)
  = blob_layout salt iv tag name mime
      (take (k - length (header_layout salt iv tag name mime)) ct).
Proof. intros H. unfold blob_layout. by apply take_app_ge. Qed.

(** ** UTF-8: decoding what was encoded *)

Ltac case_cmp :=
  match goal with
  | |- context [N.ltb ?a ?b] => destruct (N.ltb_spec a b)
  | |- context [N.leb ?a ?b] => destruct (N.leb_spec a b)
  | |- context [N.eqb ?a ?b] => destruct (N.eqb_spec a b)
  end; try lia; cbn [andb orb negb].

Lemma utf8_decode_cons (st : utf8_state) (n : N) (tail : Buffer) :
  n < 256 ->
  utf8_decode st (byte_of_N n :: tail)
  = (utf8_step st n).1 ++ utf8_decode (utf8_step st n).2 tail.
Proof.
  intros Hn. cbn [utf8_decode]. rewrite to_N_byte_of_N_small by done.
  by destruct (utf8_step st n).
Qed.

Ltac decode_byte :=
  rewrite utf8_decode_cons by lia;
  unfold utf8_step;
  cbn [bytes_needed code_point lower upper utf8_start];
  unfold utf8_lead; repeat case_cmp;
  cbn [bytes_needed code_point lower upper utf8_start app fst snd].

Lemma utf8_decode_1 (c : N) (tail : Buffer) :
  c < 128 ->
  utf8_decode utf8_start (byte_of_N c :: tail) = c :: utf8_decode utf8_start tail.
Proof. intros Hc. decode_byte. reflexivity. Qed.

Lemma utf8_decode_2 (c : N) (tail : Buffer) :
  128 <= c < 2048 ->
  utf8_decode utf8_start
    (byte_of_N (192 + c / 64) :: byte_of_N (128 + c mod 64) :: tail)
  = c :: utf8_decode utf8_start tail.
Proof.
  intros Hc. decode_byte. decode_byte.
  unfold units_of_code_point. case_cmp. cbn [app]. f_equal. lia.
Qed.

Lemma utf8_decode_3 (c : N) (tail : Buffer) :
  2048 <= c < 65536 -> ~ (55296 <= c < 57344) ->
  utf8_decode utf8_start
    (byte_of_N (224 + c / 4096) :: byte_of_N (128 + (c / 64) mod 64)
       :: byte_of_N (128 + c mod 64) :: tail)
  = c :: utf8_decode utf8_start tail.
Proof.
  intros Hc Hs. decode_byte; decode_byte; decode_byte;
    unfold units_of_code_point; case_cmp; cbn [app]; f_equal; lia.
Qed.

Lemma utf8_decode_4 (cp : N) (tail : Buffer) :
  65536 <= cp < 1114112 ->
  utf8_decode utf8_start
    (byte_of_N (240 + cp / 262144) :: byte_of_N (128 + (cp / 4096) mod 64)
       :: byte_of_N (128 + (cp / 64) mod 64) :: byte_of_N (128 + cp mod 64)
       :: tail)
  = units_of_code_point cp ++ utf8_decode utf8_start tail.
Proof.
  intros Hc. decode_byte; decode_byte; decode_byte; decode_byte;
    f_equal; f_equal; lia.
Qed.

Lemma is_high_surrogate_spec (c : N) :
  is_high_surrogate c = true <-> 55296 <= c < 56320.
Proof. unfold is_high_surrogate. repeat case_cmp; split; (done || lia). Qed.

Lemma is_low_surrogate_spec (c : N) :
  is_low_surrogate c = true <-> 56320 <= c < 57344.
Proof. unfold is_low_surrogate. repeat case_cmp; split; (done || lia). Qed.

Lemma units_of_surrogate_pair (c d : N) :
  55296 <= c < 56320 -> 56320 <= d < 57344 ->
  units_of_code_point (65536 + (c - 55296) * 1024 + (d - 56320)) = [c; d].
Proof.
  intros Hc Hd. unfold units_of_code_point. case_cmp. f_equal; [|f_equal]; lia.
Qed.

Lemma utf8_roundtrip_upto (n : nat) (s : jsstring) :
  (length s <= n)%nat -> isWellFormed s = true ->
  utf8_decode utf8_start (Buffer_from_utf8 s) = s.
Proof.
  revert s. induction n as [|n IH]; intros [|c rest] Hlen Hwf;
    try done; simpl in Hlen; try lia.
  cbn [isWellFormed] in Hwf. cbn [Buffer_from_utf8].
  destruct (is_high_surrogate c) eqn:Hh.
  - apply is_high_surrogate_spec in Hh.
    destruct (N.ltb_spec c 128); [lia|]. destruct (N.ltb_spec c 2048); [lia|].
    destruct rest as [|d rest']; [done|].
    apply andb_true_iff in Hwf as [Hd Hwf]. rewrite Hd.
    apply is_low_surrogate_spec in Hd.
    cbv zeta. rewrite utf8_decode_4 by lia.
    rewrite units_of_surrogate_pair by done.
    cbn [app]. do 2 f_equal. apply IH; [simpl in Hlen; lia|done].
  - apply andb_true_iff in Hwf as [Hwf Hrest].
    apply andb_true_iff in Hwf as [Hc Hl].
    apply N.ltb_lt in Hc. apply negb_true_iff in Hl.
    assert (Hns : ~ (55296 <= c < 57344)).
    { intros Hs. destruct (N.lt_ge_cases c 56320).
      - assert (is_high_surrogate c = true) by (apply is_high_surrogate_spec; lia).
        congruence.
      - assert (is_low_surrogate c = true) by (apply is_low_surrogate_spec; lia).
        congruence. }
    assert (Hrec : utf8_decode utf8_start (Buffer_from_utf8 rest) = rest)
      by (apply IH; [lia|done]).
    destruct (N.ltb_spec c 128).
    { rewrite utf8_decode_1 by done. by rewrite Hrec. }
    destruct (N.ltb_spec c 2048).
    { rewrite utf8_decode_2 by lia. by rewrite Hrec. }
    rewrite Hl, utf8_decode_3 by (done || lia). by rewrite Hrec.
Qed.

(** Decoding the UTF-8 form of a well-formed string gives the string back. *)
Lemma toString_utf8_Buffer_from_utf8 (s : jsstring) :
  isWellFormed s = true -> toString_utf8 (Buffer_from_utf8 s) = s.
Proof. apply (utf8_roundtrip_upto (length s)). done. Qed.

(** ** The reference instance meets the contract *)

Lemma byte_of_N_eq (x : N) (b : byte) : x mod 256 = Byte.to_N b -> byte_of_N x = b.
Proof. intros H. unfold byte_of_N. rewrite H. by rewrite Byte.of_to_N. Qed.

Lemma blen_map_seq (f : nat -> byte) (n : N) :
  blen (map f (seq 0 (N.to_nat n))) = n.
Proof. unfold blen. rewrite length_map, length_seq. lia. Qed.

Lemma RefCrypto_blen_mask (key nonce buf : Buffer) (i : N) :
  blen (RefCrypto.mask key nonce i buf) = blen buf.
Proof.
  revert i. induction buf as [|b rest IH]; intros i; [done|].
  unfold blen in *. cbn [RefCrypto.mask length]. specialize (IH (i + 1)). lia.
Qed.

Lemma RefCrypto_unmask_mask (key nonce buf : Buffer) (i : N) :
  RefCrypto.unmask key nonce i (RefCrypto.mask key nonce i buf) = buf.
Proof.
  revert i. induction buf as [|b rest IH]; intros i; [done|].
  cbn [RefCrypto.mask RefCrypto.unmask]. rewrite IH. f_equal.
  apply byte_of_N_eq. rewrite to_N_byte_of_N.
  pose proof (Byte.to_N_bounded b).
  assert (RefCrypto.pad key nonce i < 256) by (unfold RefCrypto.pad; lia).
  generalize dependent (RefCrypto.pad key nonce i). intros p Hp. lia.
Qed.

Lemma RefCrypto_spec : NodeCryptoSpec RefCrypto.crypto.
Proof.
  split.
  - intros n g. apply blen_map_seq.
  - intros secret salt. apply (blen_map_seq _ 32).
  - intros key nonce buf Hk Hn. unfold gcm_encrypt.
    cbn [createCipheriv cipher_update cipher_final getAuthTag RefCrypto.crypto].
    unfold RefCrypto.create, RefCrypto.usable. rewrite Hk, Hn.
    rewrite bool_decide_eq_true_2 by done. cbn.
    eexists _, _. split; [reflexivity|]. split; [|done].
    rewrite app_nil_r. apply RefCrypto_blen_mask.
  - intros key nonce buf ct tag Hk Hn. unfold gcm_encrypt, gcm_decrypt.
    cbn [createCipheriv cipher_update cipher_final getAuthTag createDecipheriv
         setAuthTag decipher_update decipher_final RefCrypto.crypto].
    unfold RefCrypto.create, RefCrypto.usable. rewrite Hk, Hn.
    rewrite bool_decide_eq_true_2 by done.
    cbn [N.eqb Pos.eqb andb negb bind].
    unfold RefCrypto.encrypt_update, RefCrypto.encrypt_final, RefCrypto.auth_tag,
      RefCrypto.set_tag, RefCrypto.decrypt_update, RefCrypto.decrypt_final,
      RefCrypto.advance.
    cbn [RefCrypto.s_key RefCrypto.s_nonce RefCrypto.s_pos RefCrypto.s_sum
         RefCrypto.s_final RefCrypto.s_tag bind fst snd].
    rewrite app_nil_r. intros [= <- <-].
    rewrite decide_True by done. cbn [bind].
    by rewrite app_nil_r, RefCrypto_unmask_mask.
Qed.

(** ** The codec *)

Section CodecProperties.
Context {C : NodeCrypto}.

(** The two functions in terms of one encryption and one decryption. *)
Lemma encryptBuffer_gcm_encrypt (buf : Buffer) (secret : jsstring) (g : rng) :
  encryptBuffer buf secret g
  = let slt := (randomBytes 16 g).1 in
    let nonce := (randomBytes 12 (randomBytes 16 g).2).1 in
    (do sealed <- gcm_encrypt (deriveKey secret slt) nonce buf;
     Ok {| ciphertext := sealed.1; iv := nonce; authTag := sealed.2;
           salt := slt |},
     (randomBytes 12 (randomBytes 16 g).2).2).
Proof.
  unfold encryptBuffer, gcm_encrypt.
  destruct (randomBytes 16 g) as [slt g1]. cbn [fst snd].
  destruct (randomBytes 12 g1) as [nonce g2]. cbn [fst snd]. f_equal.
  destruct (createCipheriv _ _ _) as [c|]; [|done]. cbn [bind].
  destruct (cipher_update c buf) as [[o1 c1]|]; [|done]. cbn [bind fst snd].
  destruct (cipher_final c1) as [[o2 c2]|]; [|done]. cbn [bind fst snd].
  destruct (getAuthTag c2) as [tag|]; [|done]. cbn [bind fst snd].
  by rewrite !concat_cons, concat_nil, app_nil_r.
Qed.

Lemma decryptBuffer_gcm_decrypt (p : payload) (secret : jsstring) :
  decryptBuffer p secret
  = gcm_decrypt (scryptSync secret (salt p) 32) (iv p) (authTag p) (ciphertext p).
Proof.
  unfold decryptBuffer, gcm_decrypt, deriveKey.
  destruct (createDecipheriv _ _ _) as [d|]; [|done]. cbn [bind].
  destruct (setAuthTag d _) as [d1|]; [|done]. cbn [bind].
  destruct (decipher_update d1 _) as [[o1 d2]|]; [|done]. cbn [bind fst snd].
  destruct (decipher_final d2) as [o2|]; [|done]. cbn [bind].
  by rewrite !concat_cons, concat_nil, app_nil_r.
Qed.

Context (HC : NodeCryptoSpec C).

(** What [encryptBuffer] returns: fresh salt and nonce of the fixed sizes, the
    ciphertext and tag of the cipher under the derived key. *)
Lemma encryptBuffer_spec (buf : Buffer) (secret : jsstring) (g : rng) :
  let salt := (randomBytes 16 g).1 in
  let nonce := (randomBytes 12 (randomBytes 16 g).2).1 in
  exists ct tag,
    encryptBuffer buf secret g
    = (Ok {| ciphertext := ct; iv := nonce; authTag := tag; salt := salt |},
       (randomBytes 12 (randomBytes 16 g).2).2)
    /\ gcm_encrypt (deriveKey secret salt) nonce buf = Ok (ct, tag)
    /\ blen ct = blen buf /\ blen tag = 16
    /\ blen salt = 16 /\ blen nonce = 12.
Proof using HC.
  intros salt nonce. rewrite encryptBuffer_gcm_encrypt. cbv zeta.
  fold salt nonce.
  pose proof (randomBytes_length C HC 16 g) as Hs.
  pose proof (randomBytes_length C HC 12 (randomBytes 16 g).2) as Hn.
  fold salt in Hs. fold nonce in Hn.
  destruct (gcm_encrypt_ok C HC (deriveKey secret salt) nonce buf)
    as (ct & tag & He & Hct & Htag); [apply (scryptSync_length C HC)|done|].
  exists ct, tag. rewrite He. cbn [bind fst snd]. done.
Qed.

(** [decryptBuffer] does no checking of its own: it is the cipher run under the
    key derived from the payload's salt, whatever the size of the salt. *)
Lemma decryptBuffer_any_salt (slt nonce buf ct tag : Buffer) (secret : jsstring) :
  blen nonce = 12 ->
  gcm_encrypt (deriveKey secret slt) nonce buf = Ok (ct, tag) ->
  decryptBuffer {| ciphertext := ct; iv := nonce; authTag := tag; salt := slt |}
                secret = Ok buf.
Proof using HC.
  intros Hn He. rewrite decryptBuffer_gcm_decrypt.
  cbn [salt iv authTag ciphertext].
  apply (gcm_decrypt_encrypt C HC); [apply (scryptSync_length C HC)|done|done].
Qed.

End CodecProperties.

(** ** Every outcome of the parser *)

Lemma blen_subarray (buf : Buffer) (s e : N) :
  s <= e -> e <= blen buf -> blen (subarray buf s e) = e - s.
Proof.
  intros Hse He. unfold subarray, blen in *.
  rewrite length_take, length_drop. lia.
Qed.

Lemma subarray_from_split (buf : Buffer) (s e : N) :
  s <= e -> subarray_from buf s = subarray buf s e ++ subarray_from buf e.
Proof.
  intros Hse. unfold subarray, subarray_from.
  replace (N.to_nat e) with (N.to_nat s + N.to_nat (e - s))%nat by lia.
  rewrite <- drop_drop. by rewrite take_drop.
Qed.

Lemma le32_read (b0 b1 b2 b3 : byte) :
  le32 (Byte.to_N b0 + Byte.to_N b1 * 2 ^ 8 + Byte.to_N b2 * 2 ^ 16
        + Byte.to_N b3 * 2 ^ 24) = [b0; b1; b2; b3].
Proof.
  pose proof (Byte.to_N_bounded b0). pose proof (Byte.to_N_bounded b1).
  pose proof (Byte.to_N_bounded b2). pose proof (Byte.to_N_bounded b3).
  change (2 ^ 8) with 256. change (2 ^ 16) with 65536.
  change (2 ^ 24) with 16777216.
  unfold le32. repeat f_equal; apply byte_of_N_eq; lia.
Qed.

Lemma readUInt32LE_subarray (buf : Buffer) (off n : N) :
  readUInt32LE buf off = Ok n -> subarray buf off (off + 4) = le32 n.
Proof.
  unfold readUInt32LE, subarray.
  replace (N.to_nat (off + 4 - off)) with 4%nat by lia.
  destruct (drop (N.to_nat off) buf) as [|b0 [|b1 [|b2 [|b3 r]]]]; try done.
  intros [= <-]. by rewrite le32_read.
Qed.

Lemma readUInt32LE_lt (buf : Buffer) (off n : N) :
  readUInt32LE buf off = Ok n -> n < 2 ^ 32.
Proof.
  unfold readUInt32LE.
  destruct (drop (N.to_nat off) buf) as [|b0 [|b1 [|b2 [|b3 r]]]]; try done.
  intros [= <-].
  pose proof (Byte.to_N_bounded b0). pose proof (Byte.to_N_bounded b1).
  pose proof (Byte.to_N_bounded b2). pose proof (Byte.to_N_bounded b3).
  change (2 ^ 32) with 4294967296.
  change (2 ^ 8) with 256. change (2 ^ 16) with 65536.
  change (2 ^ 24) with 16777216. lia.
Qed.


Lemma deserializeBlob_outcome (blob : Buffer) :
  parse_outcome blob (deserializeBlob blob).
Proof.
  rewrite deserializeBlob_unfold.
  destruct (N.ltb_spec (blen blob) 48) as [H48|H48]; [by constructor|].
  destruct (readUInt32LE_in_range blob 44) as (nameLen & Hr1 & _); [lia|].
  rewrite Hr1. cbn [bind].
  destruct (N.ltb_spec (blen blob) (48 + nameLen + 4)) as [Hn|Hn];
    [by econstructor 2|].
  destruct (readUInt32LE_in_range blob (48 + nameLen))
    as (mimeLen & Hr2 & _); [lia|].
  rewrite Hr2. cbn [bind].
  destruct (N.ltb_spec (blen blob) (48 + nameLen + 4 + mimeLen)) as [Hm|Hm];
    [by econstructor 3|].
  cbv zeta.
  assert (Hct : blen (subarray_from blob (48 + nameLen + 4 + mimeLen))
                = blen blob - (48 + nameLen + 4 + mimeLen)).
  { unfold subarray_from, blen. rewrite length_drop. lia. }
  destruct (N.eqb_spec (blen (subarray_from blob (48 + nameLen + 4 + mimeLen))) 0).
  - econstructor 4; [done|done|lia].
  - econstructor 5; [done|done|lia].
Qed.

(** When the checks pass, the blob is exactly the slices that were read: no
    slice was cut short by the end of the buffer. *)
Lemma parsed_slices_layout (blob : Buffer) (nameLen mimeLen : N) :
  readUInt32LE blob 44 = Ok nameLen ->
  readUInt32LE blob (48 + nameLen) = Ok mimeLen ->
  48 + nameLen + 4 + mimeLen <= blen blob ->
  let name := subarray blob 48 (48 + nameLen) in
  let mime := subarray blob (48 + nameLen + 4) (48 + nameLen + 4 + mimeLen) in
  blen (subarray blob 0 16) = 16 /\ blen (subarray blob 16 28) = 12
  /\ blen (subarray blob 28 44) = 16
  /\ blen name = nameLen /\ blen mime = mimeLen
  /\ blob = blob_layout (subarray blob 0 16) (subarray blob 16 28)
              (subarray blob 28 44) name mime
              (subarray_from blob (48 + nameLen + 4 + mimeLen)).
Proof.
  intros Hr1 Hr2 Hlen name mime.
  assert (Hn : blen name = nameLen).
  { unfold name. rewrite blen_subarray by lia. lia. }
  assert (Hm : blen mime = mimeLen).
  { unfold mime. rewrite blen_subarray by lia. lia. }
  repeat split; try (rewrite blen_subarray by lia; lia); try done.
  unfold blob_layout, header_layout. rewrite Hn, Hm.
  rewrite <- (readUInt32LE_subarray _ _ _ Hr1).
  rewrite <- (readUInt32LE_subarray _ _ _ Hr2).
  rewrite <- !app_assoc. unfold name, mime.
  change (44 + 4) with 48.
  rewrite <- (subarray_from_split blob (48 + nameLen + 4)) by lia.
  rewrite <- (subarray_from_split blob (48 + nameLen)) by lia.
  rewrite <- (subarray_from_split blob 48) by lia.
  rewrite <- (subarray_from_split blob 44) by lia.
  rewrite <- (subarray_from_split blob 28) by lia.
  rewrite <- (subarray_from_split blob 16) by lia.
  rewrite <- (subarray_from_split blob 0) by lia.
  reflexivity.
Qed.

(** ** Prefixes of a blob *)

Lemma blob_layout_prefix (salt iv tag name mime ct : Buffer) (k : nat) :
  blen salt = 16 -> blen iv = 12 -> blen tag = 16 ->
  blen name < 2 ^ 32 -> blen mime < 2 ^ 32 ->
  let b := blob_layout salt iv tag name mime ct in
  let header := length (header_layout salt iv tag name mime) in
  (k < length b)%nat ->
  ((k < header)%nat ->
     deserializeBlob (take k b) = Throw (Error "truncated header"))
  /\ (k = header ->
        deserializeBlob (take k b) = Throw (Error "missing ciphertext"))
  /\ ((header < k)%nat ->
        deserializeBlob (take k b)
        = Ok {| f_salt := salt; f_iv := iv; f_authTag := tag;
                f_name := toString_utf8 name; f_mime := toString_utf8 mime;
                f_ciphertext := take (k - header) ct |}).
Proof.
  intros Hs Hi Ht Hn Hm b header Hk.
  assert (Hlen : length b = (header + length ct)%nat).
  { unfold b, header, blob_layout. by rewrite length_app. }
  split; [|split].
  - intros Hlt. by apply deserializeBlob_short.
  - intros Heq. unfold b. rewrite take_blob_layout by (fold header; lia).
    rewrite deserializeBlob_layout by done.
    fold header. by rewrite Heq, Nat.sub_diag.
  - intros Hgt. unfold b. rewrite take_blob_layout by (fold header; lia).
    rewrite deserializeBlob_layout by done. fold header.
    destruct (N.eqb_spec (blen (take (k - header) ct)) 0) as [Hz|Hz]; [|done].
    exfalso. unfold blen in Hz. rewrite length_take in Hz. lia.
Qed.

Lemma deserializeBlob_sizes (blob : Buffer) (f : frame) :
  deserializeBlob blob = Ok f ->
  blen (f_salt f) = 16 /\ blen (f_iv f) = 12 /\ blen (f_authTag f) = 16.
Proof.
  intros Hf. pose proof (deserializeBlob_outcome blob) as Hout.
  rewrite Hf in Hout.
  inversion Hout as [| | | | nameLen mimeLen Hr1 Hr2 Hlen Hfeq].
  cbn [f_salt f_iv f_authTag].
  rewrite !blen_subarray by lia. done.
Qed.

(** ** Lenient decoding *)

Lemma toString_utf8_lone_byte (b : byte) :
  128 <= Byte.to_N b -> toString_utf8 [b] = [65533].
Proof.
  intros Hb. pose proof (Byte.to_N_bounded b).
  unfold toString_utf8. cbn [utf8_decode].
  unfold utf8_step. cbn [bytes_needed utf8_start]. unfold utf8_lead.
  repeat case_cmp; reflexivity.
Qed.

(** ** The routes *)

Lemma api_encrypt_secret_through_key {C : NodeCrypto}
    (f : file) (s1 s2 : jsstring) (srv : server) :
  s1 <> [] -> s2 <> [] ->
  deriveKey s1 (randomBytes 16 (random srv)).1
  = deriveKey s2 (randomBytes 16 (random srv)).1 ->
  api_encrypt (Some f) (Some s1) srv = api_encrypt (Some f) (Some s2) srv.
Proof.
  intros H1 H2 Hk. unfold api_encrypt, encryptBuffer. cbn [default from_option id].
  destruct s1 as [|c1 s1]; [done|]. destruct s2 as [|c2 s2]; [done|].
  cbn [falsy]. destruct (randomBytes 16 (random srv)) as [slt g1].
  cbn [fst] in Hk. rewrite Hk. reflexivity.
Qed.

Lemma api_decrypt_storage {C : NodeCrypto}
    (id secret : option jsstring) (srv : server) :
  storage (api_decrypt id secret srv).2 = storage srv.
Proof.
  unfold api_decrypt.
  destruct (falsy id || falsy secret); [done|].
  cbn [console_log storage].
  destruct (storage srv !! default [] id); [|done].
  match goal with |- context [match ?m with Ok _ => _ | Throw _ => _ end] =>
    destruct m end; done.
Qed.

(** Whatever makes [/api/decrypt] throw after the blob was found, the reply is
    the same. *)
Lemma api_decrypt_failure_generic {C : NodeCrypto}
    (id secret : jsstring) (blob : Buffer) (srv : server) (e : exn) :
  id <> [] -> secret <> [] -> storage srv !! id = Some blob ->
  (deserializeBlob blob = Throw e
   \/ exists f, deserializeBlob blob = Ok f
        /\ decryptBuffer {| ciphertext := f_ciphertext f; iv := f_iv f;
                            authTag := f_authTag f; salt := f_salt f |} secret
           = Throw e) ->
  (api_decrypt (Some id) (Some secret) srv).1
  = res_error 400 "decryption failed (wrong secret or corrupt data)".
Proof.
  intros Hid Hsec Hblob He. unfold api_decrypt.
  destruct id as [|ci id]; [done|]. destruct secret as [|cs secret]; [done|].
  cbn [falsy orb default from_option Datatypes.id console_log storage].
  rewrite Hblob.
  destruct He as [He|(f & Hf & He)].
  - rewrite He. reflexivity.
  - rewrite Hf. cbn [bind]. rewrite He. reflexivity.
Qed.


(** ** The scenario of the specification, run on the reference instance *)

Example scenario_upload :
  (api_encrypt (Some {| originalname := js "note.txt";
                        buffer := Buffer_from_utf8 (js "hello world");
                        mimetype := js "text/plain" |})
               (Some (js "correct-horse")) empty_server).1
  = res_encrypted (js "file-h.bin") (js "note.txt") 11.
Proof. vm_compute. reflexivity. Qed.

Example scenario_download :
  let s := (api_encrypt (Some {| originalname := js "note.txt";
                                 buffer := Buffer_from_utf8 (js "hello world");
                                 mimetype := js "text/plain" |})
                        (Some (js "correct-horse")) empty_server).2 in
  (api_decrypt (Some (js "file-h.bin")) (Some (js "correct-horse")) s).1
  = res_send (js "text/plain") (js "inline; filename=" ++ [34] ++ js "note.txt" ++ [34])
      (Buffer_from_utf8 (js "hello world"))
  /\ (api_decrypt (Some (js "file-h.bin")) (Some (js "wrong-pass")) s).1
     = res_error 400 "decryption failed (wrong secret or corrupt data)"
  /\ (api_decrypt (Some (js "other.bin")) (Some (js "correct-horse")) s).1
     = res_error 404 "not found".
Proof. vm_compute. repeat split; reflexivity. Qed.

Example scenario_truncated_to_10 :
  deserializeBlob (take 10 sample_blob) = Throw (Error "truncated header").
Proof. vm_compute. reflexivity. Qed.

Example scenario_unicode_name :
  toString_utf8 (Buffer_from_utf8 [104; 233; 8364; 55357; 56832])
  = [104; 233; 8364; 55357; 56832]
  /\ Buffer_from_utf8 [55357] = replacement_bytes
  /\ toString_utf8 ["240"; "159"; "152"]%byte = [65533].
Proof. vm_compute. repeat split; reflexivity. Qed.

(** * The claims *)

(** C1. Round trip of the codec: for every plaintext and every non-empty
    passphrase, [encryptBuffer] succeeds, and [decryptBuffer] applied to its
    result with the same passphrase returns exactly the plaintext. *)
Theorem decrypt_encrypt_roundtrip {C : NodeCrypto} (HC : NodeCryptoSpec C)
    (p : Buffer) (s : jsstring) (g : rng) :
  s <> [] ->
  exists enc,
    (encryptBuffer p s g).1 = Ok enc /\ decryptBuffer enc s = Ok p.
Proof.
  intros _.
  destruct (encryptBuffer_spec HC p s g) as (ct & tag & Henc & Hseal & _ & _ & _ & Hn).
  eexists. rewrite Henc. split; [reflexivity|].
  by apply decryptBuffer_any_salt.
Qed.

Lemma decrypt_encrypt_roundtrip_witness :
  NodeCryptoSpec RefCrypto.crypto /\ js "correct-horse" <> []
  /\ exists enc,
       (encryptBuffer (C := RefCrypto.crypto)
          (Buffer_from_utf8 (js "hello world")) (js "correct-horse") 5).1 = Ok enc
       /\ decryptBuffer (C := RefCrypto.crypto) enc (js "correct-horse")
          = Ok (Buffer_from_utf8 (js "hello world")).
Proof.
  split; [exact RefCrypto_spec|]. split; [discriminate|].
  apply (decrypt_encrypt_roundtrip RefCrypto_spec). discriminate.
Defined.

(** C3. Bounds-checked parsing.  For every blob: the parser never ends in the
    range fault of an unchecked read; a blob that stops before the end of any
    field (the 44 fixed bytes and the name length, the name and the media-type
    length, the media type) is rejected with "truncated header", where the
    two variable sizes are the values the blob itself declares; on success
    every slice has exactly its declared size and the slices make up the whole
    blob; and a blob declaring a 1000-byte name with 5 bytes left is rejected
    with "truncated header". *)
Theorem deserializeBlob_bounds_checked (blob : Buffer) :
  (forall code, deserializeBlob blob <> Throw (RangeError code))
  /\ (blen blob < 48 -> deserializeBlob blob = Throw (Error "truncated header"))
  /\ (forall nameLen,
        readUInt32LE blob 44 = Ok nameLen -> blen blob < 48 + nameLen + 4 ->
        deserializeBlob blob = Throw (Error "truncated header"))
  /\ (forall nameLen mimeLen,
        readUInt32LE blob 44 = Ok nameLen ->
        readUInt32LE blob (48 + nameLen) = Ok mimeLen ->
        blen blob < 48 + nameLen + 4 + mimeLen ->
        deserializeBlob blob = Throw (Error "truncated header"))
  /\ (forall f,
        deserializeBlob blob = Ok f ->
        exists name mime,
          blob = blob_layout (f_salt f) (f_iv f) (f_authTag f) name mime
                   (f_ciphertext f)
          /\ blen (f_salt f) = 16 /\ blen (f_iv f) = 12
          /\ blen (f_authTag f) = 16
          /\ readUInt32LE blob 44 = Ok (blen name)
          /\ readUInt32LE blob (48 + blen name) = Ok (blen mime)
          /\ f_name f = toString_utf8 name /\ f_mime f = toString_utf8 mime
          /\ f_ciphertext f <> [])
  /\ (forall fixed rest : Buffer,
        blob = fixed ++ le32 1000 ++ rest -> blen fixed = 44 -> blen rest = 5 ->
        deserializeBlob blob = Throw (Error "truncated header")).
Proof.
  pose proof (deserializeBlob_outcome blob) as Hout.
  split; [|split; [|split; [|split; [|split]]]].
  - intros code Heq. rewrite Heq in Hout. inversion Hout.
  - intros H. inversion Hout; try done; lia.
  - intros nameLen Hr H. inversion Hout as [| | n m Hr' | n m Hr' | n m Hr'];
      try done; rewrite Hr in Hr'; injection Hr' as <-; lia.
  - intros nameLen mimeLen Hr1 Hr2 H.
    inversion Hout as [| | n m Hr1' ? Hr2' | n m Hr1' Hr2' | n m Hr1' Hr2'];
      try done; rewrite Hr1 in Hr1'; injection Hr1' as <-;
      rewrite Hr2 in Hr2'; injection Hr2' as <-; lia.
  - intros f Hf. rewrite Hf in Hout.
    inversion Hout as [| | | | nameLen mimeLen Hr1 Hr2 Hlen Hfeq].
    destruct (parsed_slices_layout blob nameLen mimeLen Hr1 Hr2)
      as (Hs & Hi & Ht & Hn & Hm & Hblob); [lia|].
    eexists _, _. cbn [f_salt f_iv f_authTag f_name f_mime f_ciphertext].
    split; [exact Hblob|]. rewrite Hn, Hm.
    repeat split; try done.
    intros Hnil. apply (f_equal blen) in Hnil.
    unfold subarray_from, blen in Hnil, Hlen.
    rewrite length_drop in Hnil. simpl in Hnil. lia.
  - intros fixed rest -> Hfix Hrest.
    assert (Hr : readUInt32LE (fixed ++ le32 1000 ++ rest) 44 = Ok 1000)
      by (apply readUInt32LE_le32; [done|lia]).
    inversion Hout as [| | n m Hr' | n m Hr' ? Hl | n m Hr' ? Hl]; try done;
      rewrite Hr in Hr'; injection Hr' as <-;
      rewrite !blen_app, blen_le32 in Hl; lia.
Qed.

Lemma deserializeBlob_bounds_checked_witness :
  blen (repeat "000"%byte 44) = 44 /\ blen (repeat "001"%byte 5) = 5
  /\ deserializeBlob overlong_name_blob = Throw (Error "truncated header").
Proof.
  split; [reflexivity|]. split; [reflexivity|].
  destruct (deserializeBlob_bounds_checked overlong_name_blob)
    as (_ & _ & _ & _ & _ & H).
  apply (H (repeat "000"%byte 44) (repeat "001"%byte 5)); reflexivity.
Defined.

(** C4. The blob written by [/api/encrypt] is exactly
    salt(16) | nonce(12) | tag(16) | nameLen(4, little-endian) | name (UTF-8)
    | mimeLen(4, little-endian) | mime (UTF-8) | ciphertext, in that order and
    at those offsets, for every material of the fixed sizes and every file
    name and media type whose UTF-8 forms fit a 32-bit length; the media type
    written is the given one, or application/octet-stream when it is empty. *)
Theorem serializeBlob_exact_layout (enc : payload) (originalname mimetype : jsstring) :
  let name := Buffer_from_utf8 originalname in
  let mime :=
    Buffer_from_utf8 (or_else mimetype (js "application/octet-stream")) in
  blen (salt enc) = 16 -> blen (iv enc) = 12 -> blen (authTag enc) = 16 ->
  blen name < 2 ^ 32 -> blen mime < 2 ^ 32 ->
  exists blob,
    serializeBlob enc originalname mimetype = Ok blob
    /\ blob = salt enc ++ iv enc ++ authTag enc ++ le32 (blen name) ++ name
                ++ le32 (blen mime) ++ mime ++ ciphertext enc
    /\ subarray blob 0 16 = salt enc
    /\ subarray blob 16 28 = iv enc
    /\ subarray blob 28 44 = authTag enc
    /\ subarray blob 44 48 = le32 (blen name)
    /\ readUInt32LE blob 44 = Ok (blen name)
    /\ subarray blob 48 (48 + blen name) = name
    /\ subarray blob (48 + blen name) (52 + blen name) = le32 (blen mime)
    /\ readUInt32LE blob (48 + blen name) = Ok (blen mime)
    /\ subarray blob (52 + blen name) (52 + blen name + blen mime) = mime
    /\ subarray_from blob (52 + blen name + blen mime) = ciphertext enc
    /\ blen blob = 52 + blen name + blen mime + blen (ciphertext enc).
Proof.
  intros name mime Hs Hi Ht Hn Hm.
  eexists. split; [by apply serializeBlob_layout|].
  fold name mime.
  set (blob := blob_layout (salt enc) (iv enc) (authTag enc) name mime (ciphertext enc)).
  split; [reassoc|].
  split.
  { apply (subarray_at blob [] (salt enc) (iv enc ++ authTag enc ++ le32 (blen name)
             ++ name ++ le32 (blen mime) ++ mime ++ ciphertext enc));
      [reassoc|blen_solve|blen_solve]. }
  split.
  { apply (subarray_at blob (salt enc) (iv enc) (authTag enc ++ le32 (blen name)
             ++ name ++ le32 (blen mime) ++ mime ++ ciphertext enc));
      [reassoc|blen_solve|blen_solve]. }
  split.
  { apply (subarray_at blob (salt enc ++ iv enc) (authTag enc) (le32 (blen name)
             ++ name ++ le32 (blen mime) ++ mime ++ ciphertext enc));
      [reassoc|blen_solve|blen_solve]. }
  split.
  { apply (subarray_at blob (salt enc ++ iv enc ++ authTag enc) (le32 (blen name))
             (name ++ le32 (blen mime) ++ mime ++ ciphertext enc));
      [reassoc|blen_solve|blen_solve]. }
  split.
  { apply (readUInt32LE_at blob (salt enc ++ iv enc ++ authTag enc)
             (name ++ le32 (blen mime) ++ mime ++ ciphertext enc));
      [reassoc|done|blen_solve]. }
  split.
  { apply (subarray_at blob (salt enc ++ iv enc ++ authTag enc ++ le32 (blen name))
             name (le32 (blen mime) ++ mime ++ ciphertext enc));
      [reassoc|blen_solve|blen_solve]. }
  split.
  { apply (subarray_at blob (salt enc ++ iv enc ++ authTag enc ++ le32 (blen name)
             ++ name) (le32 (blen mime)) (mime ++ ciphertext enc));
      [reassoc|blen_solve|blen_solve]. }
  split.
  { apply (readUInt32LE_at blob (salt enc ++ iv enc ++ authTag enc
             ++ le32 (blen name) ++ name) (mime ++ ciphertext enc));
      [reassoc|done|blen_solve]. }
  split.
  { apply (subarray_at blob (salt enc ++ iv enc ++ authTag enc ++ le32 (blen name)
             ++ name ++ le32 (blen mime)) mime (ciphertext enc));
      [reassoc|blen_solve|blen_solve]. }
  split.
  { apply (subarray_from_at blob (header_layout (salt enc) (iv enc) (authTag enc)
             name mime) (ciphertext enc));
      [reassoc|rewrite blen_header_layout; lia]. }
  unfold blob, blob_layout. rewrite blen_app, blen_header_layout. lia.
Qed.

Lemma serializeBlob_exact_layout_witness :
  let enc := sample_payload ["104"; "105"]%byte in
  blen (salt enc) = 16 /\ blen (iv enc) = 12 /\ blen (authTag enc) = 16
  /\ blen (Buffer_from_utf8 (js "note.txt")) < 2 ^ 32
  /\ blen (Buffer_from_utf8 (or_else (js "text/plain") (js "application/octet-stream")))
     < 2 ^ 32
  /\ exists blob,
       serializeBlob enc (js "note.txt") (js "text/plain") = Ok blob
       /\ readUInt32LE blob 44 = Ok 8
       /\ subarray_from blob 70 = ["104"; "105"]%byte.
Proof.
  intros enc. repeat (split; [reflexivity|]).
  destruct (serializeBlob_exact_layout enc (js "note.txt") (js "text/plain"))
    as (blob & Hb & _ & _ & _ & _ & _ & Hr & _ & _ & _ & _ & Hc & _);
    try reflexivity.
  exists blob. split; [exact Hb|]. split; [exact Hr|exact Hc].
Defined.

(** C5, as stated, fails: with an empty ciphertext the framed blob is not
    parsed back; the parser rejects it with "missing ciphertext". *)
Lemma framing_roundtrip_empty_ciphertext :
  (do blob <- serializeBlob (sample_payload []) (js "note.txt") (js "text/plain");
   deserializeBlob blob) = Throw (Error "missing ciphertext").
Proof. vm_compute. reflexivity. Qed.

(** C5, amended.  For every material of the fixed sizes and every well-formed
    file name and media type whose UTF-8 forms fit a 32-bit length, framing
    succeeds, and parsing the blob returns the salt, nonce, tag, file name and
    ciphertext unchanged and the media type unchanged (an empty media type
    comes back as application/octet-stream), provided the ciphertext is not
    empty; with an empty ciphertext parsing fails with "missing ciphertext". *)
Theorem framing_roundtrip (enc : payload) (originalname mimetype : jsstring) :
  blen (salt enc) = 16 -> blen (iv enc) = 12 -> blen (authTag enc) = 16 ->
  blen (Buffer_from_utf8 originalname) < 2 ^ 32 ->
  blen (Buffer_from_utf8 (or_else mimetype (js "application/octet-stream")))
    < 2 ^ 32 ->
  isWellFormed originalname = true -> isWellFormed mimetype = true ->
  exists blob,
    serializeBlob enc originalname mimetype = Ok blob
    /\ deserializeBlob blob =
       match ciphertext enc with
       | [] => Throw (Error "missing ciphertext")
       | _ :: _ =>
           Ok {| f_salt := salt enc; f_iv := iv enc; f_authTag := authTag enc;
                 f_name := originalname;
                 f_mime := or_else mimetype (js "application/octet-stream");
                 f_ciphertext := ciphertext enc |}
       end.
Proof.
  intros Hs Hi Ht Hn Hm Hwn Hwm.
  eexists. split; [by apply serializeBlob_layout|].
  rewrite deserializeBlob_layout by done.
  rewrite !toString_utf8_Buffer_from_utf8; [|by destruct mimetype|done].
  by destruct (ciphertext enc).
Qed.

Lemma framing_roundtrip_witness :
  let enc := sample_payload ["104"; "105"]%byte in
  blen (salt enc) = 16 /\ blen (iv enc) = 12 /\ blen (authTag enc) = 16
  /\ blen (Buffer_from_utf8 [104; 233; 8364; 55357; 56832]) < 2 ^ 32
  /\ blen (Buffer_from_utf8 (or_else [] (js "application/octet-stream"))) < 2 ^ 32
  /\ isWellFormed [104; 233; 8364; 55357; 56832] = true
  /\ isWellFormed [] = true
  /\ exists blob,
       serializeBlob enc [104; 233; 8364; 55357; 56832] [] = Ok blob
       /\ deserializeBlob blob =
            Ok {| f_salt := salt enc; f_iv := iv enc; f_authTag := authTag enc;
                  f_name := [104; 233; 8364; 55357; 56832];
                  f_mime := js "application/octet-stream";
                  f_ciphertext := ["104"; "105"]%byte |}.
Proof.
  intros enc. repeat (split; [reflexivity|]).
  apply (framing_roundtrip enc [104; 233; 8364; 55357; 56832] []);
    reflexivity.
Defined.

(** C6, as stated, fails: a proper prefix that keeps the header and one byte
    of ciphertext is parsed without error. *)
Lemma truncated_ciphertext_still_parses :
  deserializeBlob sample_blob
  = Ok {| f_salt := repeat "001"%byte 16; f_iv := repeat "002"%byte 12;
          f_authTag := repeat "003"%byte 16; f_name := js "a.txt";
          f_mime := js "text/plain"; f_ciphertext := ["104"; "105"]%byte |}
  /\ (68 < length sample_blob)%nat
  /\ deserializeBlob (take 68 sample_blob)
     = Ok {| f_salt := repeat "001"%byte 16; f_iv := repeat "002"%byte 12;
             f_authTag := repeat "003"%byte 16; f_name := js "a.txt";
             f_mime := js "text/plain"; f_ciphertext := ["104"]%byte |}.
Proof. vm_compute. repeat split; lia. Qed.

(** C6, amended.  For every blob [b] that parses and every [k < length b]: the
    prefix of length [k] is rejected with "truncated header" when it stops
    inside the header, with "missing ciphertext" when it stops exactly at the
    end of the header, and is parsed successfully, with the same fields and
    the ciphertext cut to the bytes that remain, when it stops inside the
    ciphertext. *)
Theorem deserializeBlob_prefix (b : Buffer) (f : frame) (k : nat) :
  deserializeBlob b = Ok f -> (k < length b)%nat ->
  let header := (length b - length (f_ciphertext f))%nat in
  ((k < header)%nat ->
     deserializeBlob (take k b) = Throw (Error "truncated header"))
  /\ (k = header ->
        deserializeBlob (take k b) = Throw (Error "missing ciphertext"))
  /\ ((header < k)%nat ->
        deserializeBlob (take k b)
        = Ok {| f_salt := f_salt f; f_iv := f_iv f; f_authTag := f_authTag f;
                f_name := f_name f; f_mime := f_mime f;
                f_ciphertext := take (k - header) (f_ciphertext f) |}).
Proof.
  intros Hf Hk header.
  pose proof (deserializeBlob_outcome b) as Hout. rewrite Hf in Hout.
  inversion Hout as [| | | | nameLen mimeLen Hr1 Hr2 Hlen Hfeq].
  destruct (parsed_slices_layout b nameLen mimeLen Hr1 Hr2)
    as (Hs & Hi & Ht & Hn & Hm & Hb); [lia|].
  subst f. cbn [f_salt f_iv f_authTag f_name f_mime f_ciphertext] in *.
  revert Hs Hi Ht Hn Hm Hb.
  generalize (subarray b 0 16) (subarray b 16 28) (subarray b 28 44)
    (subarray b 48 (48 + nameLen))
    (subarray b (48 + nameLen + 4) (48 + nameLen + 4 + mimeLen)).
  intros salt iv tag name mime Hs Hi Ht Hn Hm Hb.
  assert (Hnlt : blen name < 2 ^ 32) by (rewrite Hn; by eapply readUInt32LE_lt).
  assert (Hmlt : blen mime < 2 ^ 32) by (rewrite Hm; by eapply readUInt32LE_lt).
  revert header Hb Hk. clear Hout Hf.
  generalize (subarray_from b (48 + nameLen + 4 + mimeLen)).
  intros ct header Hb. subst b. intros Hk.
  assert (Hh : header = length (header_layout salt iv tag name mime)).
  { unfold header, blob_layout. rewrite length_app. lia. }
  rewrite Hh. by apply blob_layout_prefix.
Qed.

Lemma deserializeBlob_prefix_witness :
  (10 < length sample_blob)%nat
  /\ deserializeBlob (take 10 sample_blob) = Throw (Error "truncated header").
Proof.
  split; [vm_compute; lia|].
  refine (proj1 (deserializeBlob_prefix sample_blob _ 10 _ _) _);
    [vm_compute; reflexivity | vm_compute; lia | vm_compute; lia].
Defined.

(** C7, as stated, fails: a blob whose file name is the byte 0xFF, which is
    not UTF-8, is parsed successfully and the name comes back as U+FFFD. *)
Lemma invalid_utf8_name_is_accepted :
  deserializeBlob bad_name_blob
  = Ok {| f_salt := repeat "001"%byte 16; f_iv := repeat "002"%byte 12;
          f_authTag := repeat "003"%byte 16; f_name := [65533];
          f_mime := js "text/plain"; f_ciphertext := ["104"; "105"]%byte |}.
Proof. vm_compute. reflexivity. Qed.

(** C7, amended.  Metadata is decoded leniently: the parser fails only with
    "truncated header" or "missing ciphertext"; a well-framed blob with a
    non-empty ciphertext is parsed whatever bytes its name and media-type
    regions hold, and these come back decoded by [toString("utf8")], which
    turns ill-formed input, such as a lone byte of 128 or more, into U+FFFD. *)
Theorem deserializeBlob_lenient_metadata :
  (forall blob e,
     deserializeBlob blob = Throw e ->
     e = Error "truncated header" \/ e = Error "missing ciphertext")
  /\ (forall salt iv tag name mime ct : Buffer,
        blen salt = 16 -> blen iv = 12 -> blen tag = 16 ->
        blen name < 2 ^ 32 -> blen mime < 2 ^ 32 -> ct <> [] ->
        deserializeBlob (blob_layout salt iv tag name mime ct)
        = Ok {| f_salt := salt; f_iv := iv; f_authTag := tag;
                f_name := toString_utf8 name; f_mime := toString_utf8 mime;
                f_ciphertext := ct |})
  /\ (forall b : byte, 128 <= Byte.to_N b -> toString_utf8 [b] = [65533]).
Proof.
  split; [|split].
  - intros blob e He. pose proof (deserializeBlob_outcome blob) as Hout.
    rewrite He in Hout. inversion Hout; auto.
  - intros salt iv tag name mime ct Hs Hi Ht Hn Hm Hct.
    rewrite deserializeBlob_layout by done.
    destruct ct; [done|reflexivity].
  - exact toString_utf8_lone_byte.
Qed.

Lemma deserializeBlob_lenient_metadata_witness :
  Byte.to_N "255" >= 128
  /\ deserializeBlob bad_name_blob
     = Ok {| f_salt := repeat "001"%byte 16; f_iv := repeat "002"%byte 12;
             f_authTag := repeat "003"%byte 16;
             f_name := toString_utf8 ["255"]%byte;
             f_mime := toString_utf8 (Buffer_from_utf8 (js "text/plain"));
             f_ciphertext := ["104"; "105"]%byte |}
  /\ toString_utf8 ["255"]%byte = [65533].
Proof.
  destruct deserializeBlob_lenient_metadata as (_ & Hparse & Hlone).
  split; [vm_compute; discriminate|]. split.
  - apply Hparse; (reflexivity || discriminate).
  - apply Hlone. vm_compute. discriminate.
Defined.

(** C8, as stated, fails: a payload whose salt has 15 bytes is decrypted
    without any size error. *)
Lemma decryptBuffer_accepts_short_salt :
  blen (salt short_salt_payload) = 15
  /\ decryptBuffer (C := RefCrypto.crypto) short_salt_payload (js "correct-horse")
     = Ok (Buffer_from_utf8 (js "hello world")).
Proof. vm_compute. split; reflexivity. Qed.

(** C8, amended.  [decryptBuffer] validates no size: it is the cipher run under
    the key derived from whatever salt the payload carries, so a payload
    sealed under a salt of any length is decrypted; in [/api/decrypt] the
    sizes cannot be wrong, since the parser hands over exactly 16 bytes of
    salt, 12 of nonce and 16 of tag. *)
Theorem decryptBuffer_sizes_unchecked {C : NodeCrypto} (HC : NodeCryptoSpec C) :
  (forall (p : payload) (secret : jsstring),
     decryptBuffer p secret
     = gcm_decrypt (scryptSync secret (salt p) 32) (iv p) (authTag p)
         (ciphertext p))
  /\ (forall (slt nonce buf ct tag : Buffer) (secret : jsstring),
        blen nonce = 12 ->
        gcm_encrypt (deriveKey secret slt) nonce buf = Ok (ct, tag) ->
        decryptBuffer
          {| ciphertext := ct; iv := nonce; authTag := tag; salt := slt |} secret
        = Ok buf)
  /\ (forall (blob : Buffer) (f : frame),
        deserializeBlob blob = Ok f ->
        blen (f_salt f) = 16 /\ blen (f_iv f) = 12 /\ blen (f_authTag f) = 16).
Proof.
  split; [exact decryptBuffer_gcm_decrypt|]. split.
  - intros. by apply decryptBuffer_any_salt.
  - exact deserializeBlob_sizes.
Qed.

Lemma decryptBuffer_sizes_unchecked_witness :
  NodeCryptoSpec RefCrypto.crypto
  /\ decryptBuffer (C := RefCrypto.crypto) short_salt_payload (js "correct-horse")
     = gcm_decrypt (C := RefCrypto.crypto)
         (scryptSync (NodeCrypto := RefCrypto.crypto) (js "correct-horse")
            (salt short_salt_payload) 32)
         (iv short_salt_payload) (authTag short_salt_payload)
         (ciphertext short_salt_payload).
Proof.
  split; [exact RefCrypto_spec|].
  apply (proj1 (decryptBuffer_sizes_unchecked RefCrypto_spec)).
Defined.

(** C9, as stated, fails: after a successful upload the page has written the
    passphrase to [localStorage]. *)
Lemma passphrase_kept_in_localStorage :
  localStorage (encryptBtn_click (fetch_json true (js "id.bin")) sample_page)
    !! "lastSecret"%string = Some (js "hunter2").
Proof. vm_compute. reflexivity. Qed.

(** C9, amended.  The page keeps the passphrase: a successful upload writes it
    to [localStorage] under "lastSecret", and the next page load copies it
    into the decrypt form; [sessionStorage] only ever receives the
    "encrypting" flag, and the decrypt handler writes to neither store.  The
    server does not keep it: what [/api/encrypt] stores and answers depends on
    the passphrase only through the derived key, and [/api/decrypt] leaves the
    storage directory as it was. *)
Theorem passphrase_storage {C : NodeCrypto} :
  (forall (p : page) (id : jsstring),
     fileInput p <> None -> secretInput p <> [] ->
     localStorage (encryptBtn_click (fetch_json true id) p) !! "lastSecret"%string
     = Some (secretInput p))
  /\ (forall (p : page) (s : jsstring),
        localStorage p !! "lastSecret"%string = Some s -> s <> [] ->
        decryptSecret (on_DOMContentLoaded p) = s)
  /\ (forall (p : page) (reply : fetched),
        sessionStorage (encryptBtn_click reply p) = sessionStorage p
        \/ sessionStorage (encryptBtn_click reply p)
           = <["encrypting"%string := js "0"]> (sessionStorage p))
  /\ (forall (p : page) (reply : downloaded),
        localStorage (decryptBtn_click reply p) = localStorage p
        /\ sessionStorage (decryptBtn_click reply p) = sessionStorage p)
  /\ (forall (f : file) (s1 s2 : jsstring) (srv : server),
        s1 <> [] -> s2 <> [] ->
        deriveKey s1 (randomBytes 16 (random srv)).1
        = deriveKey s2 (randomBytes 16 (random srv)).1 ->
        api_encrypt (Some f) (Some s1) srv = api_encrypt (Some f) (Some s2) srv)
  /\ (forall (id secret : option jsstring) (srv : server),
        storage (api_decrypt id secret srv).2 = storage srv).
Proof.
  split; [|split; [|split; [|split; [|split]]]].
  - intros p id Hf Hs. unfold encryptBtn_click.
    destruct (fileInput p) as [file|]; [|done].
    destruct (secretInput p) as [|c s] eqn:Hsec; [done|].
    cbn [set_session set_status remember localStorage].
    apply lookup_insert_eq.
  - intros p s Hl Hs. unfold on_DOMContentLoaded.
    destruct s as [|c s]; [done|].
    destruct (localStorage p !! "lastCipherId"%string) as [[|d lastId]|];
      cbn [localStorage]; rewrite Hl; reflexivity.
  - intros p reply. unfold encryptBtn_click.
    destruct (fileInput p) as [file|]; [|by left].
    destruct (secretInput p) as [|c s]; [by left|]. right.
    destruct reply as [|[] id];
      cbn [set_session set_status remember sessionStorage];
      apply insert_insert_eq.
  - intros p reply. unfold decryptBtn_click. destruct reply; [done| |done].
    repeat match goal with |- context [if ?b then _ else _] => destruct b end;
      done.
  - apply @api_encrypt_secret_through_key.
  - apply @api_decrypt_storage.
Qed.

Lemma passphrase_storage_witness :
  fileInput sample_page <> None /\ secretInput sample_page <> []
  /\ localStorage (encryptBtn_click (fetch_json true (js "id.bin")) sample_page)
       !! "lastSecret"%string = Some (js "hunter2").
Proof.
  split; [discriminate|]. split; [discriminate|].
  apply (proj1 (passphrase_storage (C := RefCrypto.crypto)));
    discriminate.
Defined.

(** C10.  Encryption keeps the length, so an empty file is encrypted to an
    empty ciphertext; [/api/encrypt] stores for it a blob that is header and
    metadata only; the parser rejects that blob with "missing ciphertext";
    and [/api/decrypt] answers every passphrase with the generic failure. *)
Theorem empty_file_cannot_be_recovered {C : NodeCrypto} (HC : NodeCryptoSpec C)
    (f : file) (secret : jsstring) (srv : server) :
  let name := Buffer_from_utf8 (originalname f) in
  let mime :=
    Buffer_from_utf8 (or_else (mimetype f) (js "application/octet-stream")) in
  buffer f = [] -> secret <> [] ->
  blen name < 2 ^ 32 -> blen mime < 2 ^ 32 ->
  (forall (buf : Buffer) (g : rng),
     exists enc, (encryptBuffer buf secret g).1 = Ok enc
                 /\ blen (ciphertext enc) = blen buf)
  /\ exists (id : jsstring) (slt nonce tag : Buffer) (srv' : server),
       api_encrypt (Some f) (Some secret) srv
       = (res_encrypted id (originalname f) 0, srv')
       /\ storage srv' !! id = Some (header_layout slt nonce tag name mime)
       /\ deserializeBlob (header_layout slt nonce tag name mime)
          = Throw (Error "missing ciphertext")
       /\ forall secret' : jsstring,
            secret' <> [] ->
            (api_decrypt (Some id) (Some secret') srv').1
            = res_error 400 "decryption failed (wrong secret or corrupt data)".
Proof.
  intros name mime Hbuf Hsec Hn Hm. split.
  { intros buf g.
    destruct (encryptBuffer_spec HC buf secret g)
      as (ct & tag & Henc & _ & Hct & _).
    eexists. rewrite Henc. split; [reflexivity|done]. }
  destruct (encryptBuffer_spec HC [] secret (random srv))
    as (ct & tag & Henc & _ & Hct & Htag & Hs & Hi).
  apply blen_nil_inv in Hct. subst ct.
  set (slt := (randomBytes 16 (random srv)).1) in *.
  set (nonce := (randomBytes 12 (randomBytes 16 (random srv)).2).1) in *.
  set (g2 := (randomBytes 12 (randomBytes 16 (random srv)).2).2) in *.
  assert (Hparse : deserializeBlob (header_layout slt nonce tag name mime)
                   = Throw (Error "missing ciphertext")).
  { rewrite <- (app_nil_r (header_layout _ _ _ _ _)).
    change (header_layout slt nonce tag name mime ++ [])
      with (blob_layout slt nonce tag name mime []).
    by rewrite deserializeBlob_layout. }
  exists ((randomUUID g2).1 ++ js ".bin"), slt, nonce, tag.
  exists {| storage := <[(randomUUID g2).1 ++ js ".bin" :=
                          header_layout slt nonce tag name mime]> (storage srv);
            random := (randomUUID g2).2; console := console srv |}.
  split; [|split; [|split; [exact Hparse|]]].
  - unfold api_encrypt. cbn [default from_option id].
    destruct secret as [|c secret]; [done|]. cbn [falsy].
    rewrite Hbuf, Henc. cbn [bind random storage console].
    rewrite serializeBlob_layout by done. cbn [salt iv authTag ciphertext].
    destruct (randomUUID g2) as [uuid g3]. cbn [fst].
    unfold blob_layout. rewrite app_nil_r. reflexivity.
  - cbn [storage]. apply lookup_insert_eq.
  - intros secret' Hs'. unfold api_decrypt.
    assert (Hid : falsy (Some ((randomUUID g2).1 ++ js ".bin")) = false).
    { cbn [falsy]. by destruct ((randomUUID g2).1). }
    rewrite Hid. destruct secret' as [|c' secret']; [done|].
    cbn [falsy orb default from_option id console_log storage].
    rewrite lookup_insert_eq, Hparse. reflexivity.
Qed.

Lemma empty_file_cannot_be_recovered_witness :
  NodeCryptoSpec RefCrypto.crypto
  /\ buffer empty_upload = [] /\ js "correct-horse" <> []
  /\ exists (id : jsstring) (srv' : server),
       (api_encrypt (Some empty_upload) (Some (js "correct-horse")) empty_server).2
       = srv'
       /\ (api_encrypt (Some empty_upload) (Some (js "correct-horse")) empty_server).1
          = res_encrypted id (js "empty.txt") 0
       /\ (api_decrypt (Some id) (Some (js "correct-horse")) srv').1
          = res_error 400 "decryption failed (wrong secret or corrupt data)".
Proof.
  split; [exact RefCrypto_spec|]. split; [reflexivity|]. split; [discriminate|].
  destruct (empty_file_cannot_be_recovered RefCrypto_spec empty_upload
              (js "correct-horse") empty_server)
    as (_ & id & slt & nonce & tag & srv' & He & _ & _ & Hd);
    [reflexivity|discriminate|reflexivity|reflexivity|].
  exists id, srv'. rewrite He. cbn [fst snd].
  split; [reflexivity|]. split; [reflexivity|]. apply Hd. discriminate.
Defined.

(** * Further properties of the two files *)

(** ** The 32-bit length fields *)

(** X1. [writeUInt32LE] succeeds exactly on 32-bit values; the four bytes it
    returns are read back as the same number by [readUInt32LE], wherever they
    stand in a buffer. *)
Theorem writeUInt32LE_then_read (n : N) :
  (n < 2 ^ 32 ->
   exists b, writeUInt32LE n = Ok b /\ blen b = 4
     /\ forall pre post : Buffer,
          readUInt32LE (pre ++ b ++ post) (blen pre) = Ok n)
  /\ (2 ^ 32 <= n -> exists e, writeUInt32LE n = Throw e).
Proof.
  split.
  - intros Hn. exists (le32 n). split; [by apply writeUInt32LE_le32|].
    split; [done|]. intros pre post. by apply readUInt32LE_le32.
  - intros Hn. eexists. by apply writeUInt32LE_range.
Qed.

Lemma writeUInt32LE_then_read_witness :
  305419896 < 2 ^ 32
  /\ exists b, writeUInt32LE 305419896 = Ok b /\ blen b = 4
       /\ readUInt32LE (["001"; "002"]%byte ++ b ++ ["003"]%byte) 2 = Ok 305419896.
Proof.
  split; [reflexivity|].
  destruct (proj1 (writeUInt32LE_then_read 305419896)) as (b & Hw & Hl & Hr);
    [reflexivity|].
  exists b. split; [exact Hw|]. split; [exact Hl|].
  exact (Hr ["001"; "002"]%byte ["003"]%byte).
Defined.

(** X2. [readUInt32LE] succeeds exactly when the four bytes at the offset lie
    inside the buffer and throws a range error otherwise; the value it reads
    is below 2^32, and writing that value with [writeUInt32LE] gives back the
    four bytes that were read. *)
Theorem readUInt32LE_exactly_in_bounds (buf : Buffer) (off : N) :
  (off + 4 <= blen buf <-> exists n, readUInt32LE buf off = Ok n)
  /\ (forall n, readUInt32LE buf off = Ok n ->
        n < 2 ^ 32 /\ writeUInt32LE n = Ok (subarray buf off (off + 4)))
  /\ (blen buf < off + 4 -> exists code, readUInt32LE buf off = Throw (RangeError code)).
Proof.
  split; [split|split].
  - intros H. destruct (readUInt32LE_in_range buf off H) as (n & Hn & _). eauto.
  - intros [n Hn]. unfold readUInt32LE in Hn.
    destruct (drop (N.to_nat off) buf) as [|b0 [|b1 [|b2 [|b3 r]]]] eqn:E; try done.
    apply (f_equal length) in E. rewrite length_drop in E. simpl in E.
    unfold blen. lia.
  - intros n Hn. split; [by eapply readUInt32LE_lt|].
    rewrite (readUInt32LE_subarray _ _ _ Hn).
    apply writeUInt32LE_le32. by eapply readUInt32LE_lt.
  - intros H. unfold readUInt32LE.
    destruct (drop (N.to_nat off) buf) as [|b0 [|b1 [|b2 [|b3 r]]]] eqn:E; eauto.
    apply (f_equal length) in E. rewrite length_drop in E. simpl in E.
    unfold blen in H. lia.
Qed.

Lemma readUInt32LE_exactly_in_bounds_witness :
  readUInt32LE ["001"; "120"; "086"; "052"; "018"]%byte 1 = Ok 305419896
  /\ writeUInt32LE 305419896 = Ok ["120"; "086"; "052"; "018"]%byte.
Proof.
  split; [reflexivity|].
  exact (proj2 (proj1 (proj2
    (readUInt32LE_exactly_in_bounds ["001"; "120"; "086"; "052"; "018"]%byte 1))
    305419896 eq_refl)).
Defined.

(** ** The parser and the codec together *)

(** X3. Bytes appended to a blob that parses are taken as more ciphertext:
    the parse still succeeds, with the same salt, nonce, tag, name and media
    type, and the ciphertext extended by the appended bytes. *)
Theorem deserializeBlob_append (b extra : Buffer) (f : frame) :
  deserializeBlob b = Ok f ->
  deserializeBlob (b ++ extra)
  = Ok {| f_salt := f_salt f; f_iv := f_iv f; f_authTag := f_authTag f;
          f_name := f_name f; f_mime := f_mime f;
          f_ciphertext := f_ciphertext f ++ extra |}.
Proof.
  intros Hf. pose proof (deserializeBlob_outcome b) as Hout. rewrite Hf in Hout.
  inversion Hout as [| | | | nameLen mimeLen Hr1 Hr2 Hlen Hfeq].
  destruct (parsed_slices_layout b nameLen mimeLen Hr1 Hr2)
    as (Hs & Hi & Ht & Hn & Hm & Hb); [lia|].
  cbn [f_salt f_iv f_authTag f_name f_mime f_ciphertext].
  assert (Hct : subarray_from b (48 + nameLen + 4 + mimeLen) <> []).
  { intros Hnil. apply (f_equal blen) in Hnil.
    unfold subarray_from, blen in Hnil, Hlen. rewrite length_drop in Hnil.
    simpl in Hnil. lia. }
  revert Hs Hi Ht Hn Hm Hb Hct.
  generalize (subarray b 0 16) (subarray b 16 28) (subarray b 28 44)
    (subarray b 48 (48 + nameLen))
    (subarray b (48 + nameLen + 4) (48 + nameLen + 4 + mimeLen))
    (subarray_from b (48 + nameLen + 4 + mimeLen)).
  intros slt nonce tag name mime ct Hs Hi Ht Hn Hm Hb Hct.
  rewrite Hb. unfold blob_layout. rewrite <- app_assoc.
  change (header_layout slt nonce tag name mime ++ ct ++ extra)
    with (blob_layout slt nonce tag name mime (ct ++ extra)).
  rewrite deserializeBlob_layout; try done.
  - destruct ct; [done|]. reflexivity.
  - rewrite Hn. by eapply readUInt32LE_lt.
  - rewrite Hm. by eapply readUInt32LE_lt.
Qed.

Lemma deserializeBlob_append_witness :
  deserializeBlob sample_blob
  = Ok {| f_salt := repeat "001"%byte 16; f_iv := repeat "002"%byte 12;
          f_authTag := repeat "003"%byte 16; f_name := js "a.txt";
          f_mime := js "text/plain"; f_ciphertext := ["104"; "105"]%byte |}
  /\ deserializeBlob (sample_blob ++ ["106"]%byte)
     = Ok {| f_salt := repeat "001"%byte 16; f_iv := repeat "002"%byte 12;
             f_authTag := repeat "003"%byte 16; f_name := js "a.txt";
             f_mime := js "text/plain";
             f_ciphertext := ["104"; "105"]%byte ++ ["106"]%byte |}.
Proof.
  split; [vm_compute; reflexivity|].
  apply (deserializeBlob_append sample_blob ["106"]%byte
           {| f_salt := repeat "001"%byte 16; f_iv := repeat "002"%byte 12;
              f_authTag := repeat "003"%byte 16; f_name := js "a.txt";
              f_mime := js "text/plain"; f_ciphertext := ["104"; "105"]%byte |}).
  vm_compute. reflexivity.
Defined.

(** X4. [encryptBuffer] always succeeds; its salt is the first 16 random
    bytes drawn and its nonce the next 12, whatever the plaintext and the
    passphrase; the tag has 16 bytes and the ciphertext the length of the
    plaintext. *)
Theorem encryptBuffer_fresh_material {C : NodeCrypto} (HC : NodeCryptoSpec C)
    (buf : Buffer) (secret : jsstring) (g : rng) :
  exists enc : payload,
    encryptBuffer buf secret g = (Ok enc, (randomBytes 12 (randomBytes 16 g).2).2)
    /\ salt enc = (randomBytes 16 g).1
    /\ iv enc = (randomBytes 12 (randomBytes 16 g).2).1
    /\ blen (salt enc) = 16 /\ blen (iv enc) = 12 /\ blen (authTag enc) = 16
    /\ blen (ciphertext enc) = blen buf.
Proof.
  destruct (encryptBuffer_spec HC buf secret g)
    as (ct & tag & Henc & _ & Hct & Htag & Hs & Hi).
  eexists. split; [exact Henc|]. done.
Qed.

Lemma encryptBuffer_fresh_material_witness :
  NodeCryptoSpec RefCrypto.crypto
  /\ exists enc : payload,
       (encryptBuffer (C := RefCrypto.crypto) (Buffer_from_utf8 (js "hello world"))
          (js "correct-horse") 5).1 = Ok enc
       /\ blen (salt enc) = 16 /\ blen (iv enc) = 12
       /\ blen (ciphertext enc) = 11.
Proof.
  split; [exact RefCrypto_spec|].
  destruct (encryptBuffer_fresh_material RefCrypto_spec
              (Buffer_from_utf8 (js "hello world")) (js "correct-horse") 5)
    as (enc & He & _ & _ & Hs & Hi & _ & Hc).
  exists enc. rewrite He. repeat split; done.
Defined.

(** ** The routes *)

Lemma Buffer_from_utf8_length_upto (n : nat) (s : jsstring) :
  (length s <= n)%nat ->
  (length (Buffer_from_utf8 s) <= 3 * length s)%nat.
Proof.
  revert s. induction n as [|n IH]; intros [|c rest] Hlen;
    simpl in Hlen; try lia; [simpl; lia|simpl; lia|].
  cbn [Buffer_from_utf8].
  assert (Hrest : (length (Buffer_from_utf8 rest) <= 3 * length rest)%nat)
    by (apply IH; lia).
  destruct (c <? 128); [simpl; lia|].
  destruct (c <? 2048); [simpl; lia|].
  destruct (is_high_surrogate c).
  - destruct rest as [|d rest']; [simpl; lia|].
    destruct (is_low_surrogate d).
    + assert ((length (Buffer_from_utf8 rest') <= 3 * length rest')%nat)
        by (apply IH; simpl in Hlen; lia).
      cbv zeta. simpl length. lia.
    + rewrite length_app. simpl length in *. lia.
  - destruct (is_low_surrogate c).
    + rewrite length_app. simpl length in *. lia.
    + simpl length. lia.
Qed.

Lemma blen_Buffer_from_utf8 (s : jsstring) :
  blen (Buffer_from_utf8 s) <= 3 * N.of_nat (length s).
Proof.
  pose proof (Buffer_from_utf8_length_upto (length s) s (le_n _)).
  unfold blen. lia.
Qed.

Lemma valid_header_value_app (a b : jsstring) :
  valid_header_value (a ++ b) = valid_header_value a && valid_header_value b.
Proof. apply forallb_app. Qed.

Lemma valid_header_value_or_else_false (a b : jsstring) :
  valid_header_value a = false -> valid_header_value (or_else a b) = false.
Proof. destruct a; [discriminate|done]. Qed.

Lemma or_else_idemp (a b : jsstring) : or_else (or_else a b) b = or_else a b.
Proof. destruct a; [by destruct b|done]. Qed.


Section Routes.
Context {C : NodeCrypto} (HC : NodeCryptoSpec C).

(** What a well-formed upload does. *)
Lemma api_encrypt_ok (f : file) (secret : jsstring) (srv : server) :
  secret <> [] ->
  N.of_nat (length (originalname f)) < 2 ^ 30 ->
  N.of_nat (length (mimetype f)) < 2 ^ 30 ->
  let slt := (randomBytes 16 (random srv)).1 in
  let nonce := (randomBytes 12 (randomBytes 16 (random srv)).2).1 in
  let g2 := (randomBytes 12 (randomBytes 16 (random srv)).2).2 in
  let id := (randomUUID g2).1 ++ js ".bin" in
  let name := Buffer_from_utf8 (originalname f) in
  let mime :=
    Buffer_from_utf8 (or_else (mimetype f) (js "application/octet-stream")) in
  exists ct tag,
    gcm_encrypt (deriveKey secret slt) nonce (buffer f) = Ok (ct, tag)
    /\ blen ct = blen (buffer f) /\ blen tag = 16
    /\ blen slt = 16 /\ blen nonce = 12
    /\ blen name < 2 ^ 32 /\ blen mime < 2 ^ 32
    /\ api_encrypt (Some f) (Some secret) srv
       = (res_encrypted id (originalname f) (blen (buffer f)),
          {| storage := <[id := blob_layout slt nonce tag name mime ct]> (storage srv);
             random := (randomUUID g2).2; console := console srv |}).
Proof using HC.
  intros Hsec Hnl Hml slt nonce g2 id name mime.
  destruct (encryptBuffer_spec HC (buffer f) secret (random srv))
    as (ct & tag & Henc & Hseal & Hct & Htag & Hs & Hi).
  fold slt nonce g2 in Henc, Hseal, Hs, Hi.
  assert (Hn : blen name < 2 ^ 32).
  { pose proof (blen_Buffer_from_utf8 (originalname f)). unfold name.
    change (2 ^ 32) with 4294967296. change (2 ^ 30) with 1073741824 in Hnl. lia. }
  assert (Hm : blen mime < 2 ^ 32).
  { pose proof (blen_Buffer_from_utf8
                  (or_else (mimetype f) (js "application/octet-stream"))) as Hb.
    unfold mime. change (2 ^ 32) with 4294967296.
    change (2 ^ 30) with 1073741824 in Hml.
    destruct (mimetype f); cbn [or_else] in *; [vm_compute; done|lia]. }
  exists ct, tag. repeat (split; [done|]).
  unfold api_encrypt. cbn [default from_option Datatypes.id].
  destruct secret as [|c secret]; [done|]. cbn [falsy].
  rewrite Henc. cbn [bind random storage console].
  rewrite serializeBlob_layout by done. cbn [salt iv authTag ciphertext].
  fold name mime. unfold id. destruct (randomUUID g2) as [uuid g3]. reflexivity.
Qed.

(** X5. Encrypting, framing, parsing and decrypting compose: for every
    non-empty plaintext, every passphrase and every file name and media type
    of fewer than 2^30 code units (well formed or not), the blob framed from
    the result of [encryptBuffer] parses, and [decryptBuffer] on the parsed
    fields returns the plaintext. *)
Theorem codec_and_framer_compose (buf : Buffer) (secret name mime : jsstring)
    (g : rng) :
  buf <> [] ->
  N.of_nat (length name) < 2 ^ 30 -> N.of_nat (length mime) < 2 ^ 30 ->
  exists (enc : payload) (blob : Buffer) (f : frame),
    (encryptBuffer buf secret g).1 = Ok enc
    /\ serializeBlob enc name mime = Ok blob
    /\ deserializeBlob blob = Ok f
    /\ decryptBuffer {| ciphertext := f_ciphertext f; iv := f_iv f;
                        authTag := f_authTag f; salt := f_salt f |} secret
       = Ok buf.
Proof using HC.
  intros Hbuf Hnl Hml.
  destruct (encryptBuffer_spec HC buf secret g)
    as (ct & tag & Henc & Hseal & Hct & Htag & Hs & Hi).
  assert (Hn : blen (Buffer_from_utf8 name) < 2 ^ 32).
  { pose proof (blen_Buffer_from_utf8 name).
    change (2 ^ 32) with 4294967296. change (2 ^ 30) with 1073741824 in Hnl. lia. }
  assert (Hm : blen (Buffer_from_utf8
                       (or_else mime (js "application/octet-stream"))) < 2 ^ 32).
  { pose proof (blen_Buffer_from_utf8
                  (or_else mime (js "application/octet-stream"))) as Hb.
    change (2 ^ 32) with 4294967296. change (2 ^ 30) with 1073741824 in Hml.
    destruct mime; cbn [or_else] in *; [vm_compute; done|lia]. }
  eexists _, _, _. rewrite Henc. split; [reflexivity|].
  split; [by apply serializeBlob_layout|]. cbn [salt iv authTag ciphertext].
  assert (Hne : (blen ct =? 0) = false).
  { apply N.eqb_neq. rewrite Hct. destruct buf; [done|]. unfold blen. simpl. lia. }
  rewrite deserializeBlob_layout, Hne by done. split; [reflexivity|].
  cbn [f_ciphertext f_iv f_authTag f_salt].
  by apply (decryptBuffer_any_salt HC).
Qed.

(** X6. An upload with a file and a non-empty passphrase always succeeds (file
    name and media type below 2^30 code units): the reply carries the new id,
    the file's name and size; exactly one file is written, under that id; its
    length is 52 bytes plus the UTF-8 lengths of name and media type plus the
    size of the upload; nothing is logged. *)
Theorem upload_stores_framed_blob (f : file) (secret : jsstring) (srv : server) :
  secret <> [] ->
  N.of_nat (length (originalname f)) < 2 ^ 30 ->
  N.of_nat (length (mimetype f)) < 2 ^ 30 ->
  exists (id : jsstring) (blob : Buffer) (srv' : server),
    api_encrypt (Some f) (Some secret) srv
    = (res_encrypted id (originalname f) (blen (buffer f)), srv')
    /\ storage srv' !! id = Some blob
    /\ (forall id', id' <> id -> storage srv' !! id' = storage srv !! id')
    /\ console srv' = console srv
    /\ blen blob
       = 52 + blen (Buffer_from_utf8 (originalname f))
         + blen (Buffer_from_utf8
                   (or_else (mimetype f) (js "application/octet-stream")))
         + blen (buffer f).
Proof using HC.
  intros Hsec Hnl Hml.
  destruct (api_encrypt_ok f secret srv Hsec Hnl Hml)
    as (ct & tag & _ & Hct & Htag & Hs & Hi & _ & _ & Hres).
  eexists _, _, _. split; [exact Hres|]. cbn [storage console].
  split; [apply lookup_insert_eq|].
  split; [intros id' Hne; by apply lookup_insert_ne|].
  split; [done|].
  unfold blob_layout. rewrite blen_app, blen_header_layout. lia.
Qed.

(** X7. Upload then download: a non-empty file whose name and media type are
    well formed and may stand in a header comes back from [/api/decrypt], under
    the id the upload returned and the same passphrase, byte for byte, with
    its media type as content type and its name in the disposition. *)
Theorem upload_then_download (f : file) (secret : jsstring) (srv : server) :
  buffer f <> [] -> secret <> [] ->
  N.of_nat (length (originalname f)) < 2 ^ 30 ->
  N.of_nat (length (mimetype f)) < 2 ^ 30 ->
  isWellFormed (originalname f) = true -> isWellFormed (mimetype f) = true ->
  valid_header_value (originalname f) = true ->
  valid_header_value (mimetype f) = true ->
  exists (id : jsstring) (srv' : server),
    api_encrypt (Some f) (Some secret) srv
    = (res_encrypted id (originalname f) (blen (buffer f)), srv')
    /\ (api_decrypt (Some id) (Some secret) srv').1
       = res_send (or_else (mimetype f) (js "application/octet-stream"))
           (js "inline; filename=" ++ [34]
              ++ or_else (originalname f) (js "file") ++ [34])
           (buffer f).
Proof using HC.
  intros Hbuf Hsec Hnl Hml Hwn Hwm Hvn Hvm.
  destruct (api_encrypt_ok f secret srv Hsec Hnl Hml)
    as (ct & tag & Hseal & Hct & Htag & Hs & Hi & Hn & Hm & Hres).
  eexists _, _. split; [exact Hres|].
  unfold api_decrypt.
  assert (Hid : falsy (Some ((randomUUID (randomBytes 12
                  (randomBytes 16 (random srv)).2).2).1 ++ js ".bin")) = false).
  { cbn [falsy]. by destruct (randomUUID _).1. }
  rewrite Hid. destruct secret as [|c secret]; [done|].
  cbn [falsy orb default from_option Datatypes.id console_log storage].
  rewrite lookup_insert_eq, deserializeBlob_layout by done.
  assert (Hne : (blen ct =? 0) = false).
  { apply N.eqb_neq. rewrite Hct. destruct (buffer f); [done|]. unfold blen. simpl. lia. }
  rewrite Hne. cbn [bind f_ciphertext f_iv f_authTag f_salt f_mime f_name].
  rewrite (decryptBuffer_any_salt HC _ _ _ _ _ _ Hi Hseal). cbn [bind].
  rewrite !toString_utf8_Buffer_from_utf8; [|done|by destruct (mimetype f)].
  rewrite or_else_idemp.
  assert (Hv1 : valid_header_value
                  (or_else (mimetype f) (js "application/octet-stream")) = true)
    by (destruct (mimetype f); [reflexivity|done]).
  assert (Hv2 : valid_header_value
                  (js "inline; filename=" ++ [34]
                     ++ or_else (originalname f) (js "file") ++ [34]) = true).
  { rewrite !valid_header_value_app.
    replace (valid_header_value (or_else (originalname f) (js "file"))) with true
      by (destruct (originalname f); [reflexivity|done]).
    reflexivity. }
  unfold setHeader. rewrite Hv1. cbn [bind]. rewrite Hv2. reflexivity.
Qed.

(** X8. A file whose name holds a character that may not stand in a header
    (a control character other than tab, or a code unit above 255) is stored
    like any other, but downloading it fails even with the right passphrase:
    [res.setHeader] throws, and the reply is the generic 400. *)
Theorem download_fails_on_header_unsafe_name
    (f : file) (secret : jsstring) (srv : server) :
  buffer f <> [] -> secret <> [] ->
  N.of_nat (length (originalname f)) < 2 ^ 30 ->
  N.of_nat (length (mimetype f)) < 2 ^ 30 ->
  isWellFormed (originalname f) = true -> isWellFormed (mimetype f) = true ->
  valid_header_value (originalname f) = false ->
  exists (id : jsstring) (srv' : server),
    api_encrypt (Some f) (Some secret) srv
    = (res_encrypted id (originalname f) (blen (buffer f)), srv')
    /\ api_decrypt (Some id) (Some secret) srv'
       = (res_error 400 "decryption failed (wrong secret or corrupt data)",
          console_log (log_error "decrypt error:" (TypeError "ERR_INVALID_CHAR"))
            (console_log (log_decrypt_req (Some id) true) srv')).
Proof using HC.
  intros Hbuf Hsec Hnl Hml Hwn Hwm Hvn.
  destruct (api_encrypt_ok f secret srv Hsec Hnl Hml)
    as (ct & tag & Hseal & Hct & Htag & Hs & Hi & Hn & Hm & Hres).
  eexists _, _. split; [exact Hres|].
  unfold api_decrypt.
  assert (Hid : falsy (Some ((randomUUID (randomBytes 12
                  (randomBytes 16 (random srv)).2).2).1 ++ js ".bin")) = false).
  { cbn [falsy]. by destruct (randomUUID _).1. }
  rewrite Hid. destruct secret as [|c secret]; [done|].
  cbn [falsy orb negb default from_option Datatypes.id console_log storage].
  rewrite lookup_insert_eq, deserializeBlob_layout by done.
  assert (Hne : (blen ct =? 0) = false).
  { apply N.eqb_neq. rewrite Hct. destruct (buffer f); [done|]. unfold blen. simpl. lia. }
  rewrite Hne. cbn [bind f_ciphertext f_iv f_authTag f_salt f_mime f_name].
  rewrite (decryptBuffer_any_salt HC _ _ _ _ _ _ Hi Hseal). cbn [bind].
  rewrite !toString_utf8_Buffer_from_utf8; [|done|by destruct (mimetype f)].
  assert (Hv2 : valid_header_value
                  (js "inline; filename=" ++ [34]
                     ++ or_else (originalname f) (js "file") ++ [34]) = false).
  { rewrite !valid_header_value_app.
    rewrite (valid_header_value_or_else_false _ _ Hvn). reflexivity. }
  unfold setHeader. rewrite Hv2, or_else_idemp.
  destruct (valid_header_value
              (or_else (mimetype f) (js "application/octet-stream")));
    reflexivity.
Qed.


End Routes.

Lemma upload_stores_framed_blob_witness :
  NodeCryptoSpec RefCrypto.crypto /\ js "correct-horse" <> []
  /\ exists (id : jsstring) (blob : Buffer) (srv' : server),
       api_encrypt (Some sample_upload) (Some (js "correct-horse")) empty_server
       = (res_encrypted id (originalname sample_upload)
            (blen (buffer sample_upload)), srv')
       /\ storage srv' !! id = Some blob
       /\ blen blob
          = 52 + blen (Buffer_from_utf8 (originalname sample_upload))
            + blen (Buffer_from_utf8
                      (or_else (mimetype sample_upload)
                         (js "application/octet-stream")))
            + blen (buffer sample_upload).
Proof.
  split; [exact RefCrypto_spec|]. split; [discriminate|].
  destruct (upload_stores_framed_blob RefCrypto_spec sample_upload
              (js "correct-horse") empty_server)
    as (id & blob & srv' & Hup & Hst & _ & _ & Hlen);
    [discriminate|reflexivity|reflexivity|].
  exists id, blob, srv'. split; [exact Hup|]. split; [exact Hst|exact Hlen].
Defined.

Lemma codec_and_framer_compose_witness :
  NodeCryptoSpec RefCrypto.crypto
  /\ exists (enc : payload) (blob : Buffer) (f : frame),
       (encryptBuffer (C := RefCrypto.crypto) ["104"; "105"]%byte (js "pw") 5).1
       = Ok enc
       /\ serializeBlob enc [55357] [] = Ok blob
       /\ deserializeBlob blob = Ok f
       /\ decryptBuffer (C := RefCrypto.crypto)
            {| ciphertext := f_ciphertext f; iv := f_iv f;
               authTag := f_authTag f; salt := f_salt f |} (js "pw")
          = Ok ["104"; "105"]%byte.
Proof.
  split; [exact RefCrypto_spec|].
  destruct (codec_and_framer_compose RefCrypto_spec ["104"; "105"]%byte (js "pw")
              [55357] [] 5)
    as (enc & blob & f & H1 & H2 & H3 & H4); [discriminate|reflexivity|reflexivity|].
  exists enc, blob, f. repeat split; assumption.
Defined.

Lemma upload_then_download_witness :
  NodeCryptoSpec RefCrypto.crypto
  /\ exists (id : jsstring) (srv' : server),
       api_encrypt (Some sample_upload) (Some (js "correct-horse")) empty_server
       = (res_encrypted id (originalname sample_upload)
            (blen (buffer sample_upload)), srv')
       /\ (api_decrypt (Some id) (Some (js "correct-horse")) srv').1
          = res_send
              (or_else (mimetype sample_upload) (js "application/octet-stream"))
              (js "inline; filename=" ++ [34]
                 ++ or_else (originalname sample_upload) (js "file") ++ [34])
              (buffer sample_upload).
Proof.
  split; [exact RefCrypto_spec|].
  destruct (upload_then_download RefCrypto_spec sample_upload
              (js "correct-horse") empty_server)
    as (id & srv' & Hup & Hdown); try (discriminate || reflexivity).
  exists id, srv'. split; [exact Hup|exact Hdown].
Defined.

Lemma download_fails_on_header_unsafe_name_witness :
  NodeCryptoSpec RefCrypto.crypto
  /\ valid_header_value (originalname unsafe_name_upload) = false
  /\ exists (id : jsstring) (srv' : server),
       api_encrypt (Some unsafe_name_upload) (Some (js "correct-horse"))
         empty_server
       = (res_encrypted id (originalname unsafe_name_upload)
            (blen (buffer unsafe_name_upload)), srv')
       /\ (api_decrypt (Some id) (Some (js "correct-horse")) srv').1
          = res_error 400 "decryption failed (wrong secret or corrupt data)".
Proof.
  split; [exact RefCrypto_spec|]. split; [reflexivity|].
  destruct (download_fails_on_header_unsafe_name RefCrypto_spec
              unsafe_name_upload (js "correct-horse") empty_server)
    as (id & srv' & Hup & Hdown); try (discriminate || reflexivity).
  exists id, srv'. split; [exact Hup|]. by rewrite Hdown.
Defined.







(** ** The page script *)

(** X12. The navigation guard of the encrypt handler.  The handler is its part
    before the [await] followed by its part after it; once an upload is
    started [beforeunload] holds navigation back; an early return leaves the
    guard as it was; and when the handler resumes, on whatever page state and
    reply, the guard is lifted. *)
Theorem encryptBtn_click_navigation_guard (p : page) (reply : fetched) :
  encryptBtn_click reply p
  = match encryptBtn_click_begin p with
    | (p', Some secret) => encryptBtn_click_resume secret reply p'
    | (p', None) => p'
    end
  /\ (forall p' secret,
        encryptBtn_click_begin p = (p', Some secret) ->
        beforeunload_prevented p' = true)
  /\ (forall p',
        encryptBtn_click_begin p = (p', None) ->
        beforeunload_prevented p' = beforeunload_prevented p)
  /\ (forall (q : page) (secret : jsstring),
        beforeunload_prevented (encryptBtn_click_resume secret reply q) = false).
Proof.
  split; [|split; [|split]].
  - unfold encryptBtn_click, encryptBtn_click_begin, encryptBtn_click_resume.
    destruct (fileInput p); [|done]. by destruct (secretInput p).
  - intros p' secret. unfold encryptBtn_click_begin.
    destruct (fileInput p); [|done]. destruct (secretInput p); [done|].
    intros [= <- _]. unfold beforeunload_prevented.
    cbn [set_status set_session sessionStorage].
    rewrite lookup_insert_eq. by apply bool_decide_eq_true_2.
  - intros p'. unfold encryptBtn_click_begin.
    destruct (fileInput p) as [file|]; [destruct (secretInput p)|];
      try done; by intros [= <-].
  - intros q secret. unfold encryptBtn_click_resume, beforeunload_prevented.
    destruct reply as [|[] id];
      cbn [set_status set_session remember sessionStorage];
      rewrite lookup_insert_eq; by apply bool_decide_eq_false_2.
Qed.

Lemma encryptBtn_click_navigation_guard_witness :
  beforeunload_prevented (encryptBtn_click_begin sample_page).1 = true
  /\ beforeunload_prevented (encryptBtn_click fetch_rejected sample_page) = false.
Proof.
  destruct (encryptBtn_click_navigation_guard sample_page fetch_rejected)
    as (Hc & Hb & _ & Hr).
  split.
  - apply (Hb _ (js "hunter2")). reflexivity.
  - rewrite Hc. cbn. apply Hr.
Defined.

(** X13. An upload that does not go through changes nothing that is kept:
    without a file or a passphrase only the status text changes; after a
    rejected or failed request, [localStorage], the decrypt form and the
    footer are as before, the status reads "Encryption failed" and the
    "encrypting" flag is back to "0". *)
Theorem encryptBtn_click_failure (p : page) (reply : fetched) :
  (fileInput p = None \/ secretInput p = [] ->
   encryptBtn_click reply p = set_status (js "Choose file and enter secret") p)
  /\ (fileInput p <> None -> secretInput p <> [] ->
      (reply = fetch_rejected \/ exists id, reply = fetch_json false id) ->
      let p' := encryptBtn_click reply p in
      localStorage p' = localStorage p
      /\ decryptId p' = decryptId p /\ decryptSecret p' = decryptSecret p
      /\ footerId p' = footerId p /\ decryptedView p' = decryptedView p
      /\ statusDiv p' = js "Encryption failed"
      /\ sessionStorage p' = <["encrypting"%string := js "0"]> (sessionStorage p)).
Proof.
  split.
  - intros [H|H]; unfold encryptBtn_click; rewrite H; [done|].
    by destruct (fileInput p).
  - intros Hf Hs Hr. unfold encryptBtn_click.
    destruct (fileInput p) as [file|]; [|done].
    destruct (secretInput p) as [|c s]; [done|].
    destruct Hr as [->|[id ->]];
      cbn [set_session set_status localStorage sessionStorage decryptId
           decryptSecret footerId decryptedView statusDiv];
      repeat split; try done; apply insert_insert_eq.
Qed.

Lemma encryptBtn_click_failure_witness :
  fileInput sample_page <> None /\ secretInput sample_page <> []
  /\ localStorage (encryptBtn_click (fetch_json false []) sample_page)
     = localStorage sample_page
  /\ statusDiv (encryptBtn_click (fetch_json false []) sample_page)
     = js "Encryption failed".
Proof.
  split; [discriminate|]. split; [discriminate|].
  destruct (proj2 (encryptBtn_click_failure sample_page (fetch_json false [])))
    as (Hl & _ & _ & _ & _ & Hs & _);
    [discriminate|discriminate|right; by exists []|].
  split; [exact Hl|exact Hs].
Defined.

(** X14. What a successful upload stored is restored on the next page load:
    on any page whose [localStorage] is the one the encrypt handler left, the
    load handler puts the id and the passphrase into the decrypt form, leaves
    both storage areas alone, and running it again changes nothing. *)
Theorem remembered_values_restored (p q : page) (id : jsstring) :
  fileInput p <> None -> secretInput p <> [] -> id <> [] ->
  localStorage q = localStorage (encryptBtn_click (fetch_json true id) p) ->
  decryptId (on_DOMContentLoaded q) = id
  /\ decryptSecret (on_DOMContentLoaded q) = secretInput p
  /\ localStorage (on_DOMContentLoaded q) = localStorage q
  /\ sessionStorage (on_DOMContentLoaded q) = sessionStorage q
  /\ on_DOMContentLoaded (on_DOMContentLoaded q) = on_DOMContentLoaded q.
Proof.
  intros Hf Hs Hid Hq.
  assert (Hl1 : localStorage q !! "lastCipherId"%string = Some id).
  { rewrite Hq. unfold encryptBtn_click.
    destruct (fileInput p); [|done]. destruct (secretInput p); [done|].
    cbn [set_session set_status remember localStorage].
    rewrite lookup_insert_ne by done. apply lookup_insert_eq. }
  assert (Hl2 : localStorage q !! "lastSecret"%string = Some (secretInput p)).
  { rewrite Hq. unfold encryptBtn_click.
    destruct (fileInput p); [|done]. destruct (secretInput p) eqn:E; [done|].
    cbn [set_session set_status remember localStorage].
    apply lookup_insert_eq. }
  unfold on_DOMContentLoaded. rewrite Hl1.
  destruct id as [|ci id]; [done|]. cbn [localStorage]. rewrite Hl2.
  destruct (secretInput p) as [|cs s]; [done|].
  cbn [decryptId decryptSecret localStorage sessionStorage].
  rewrite Hl1. cbn [localStorage]. rewrite Hl2. done.
Qed.

Lemma remembered_values_restored_witness :
  fileInput sample_page <> None /\ secretInput sample_page <> []
  /\ js "id.bin" <> []
  /\ decryptSecret
       (on_DOMContentLoaded
          {| localStorage :=
               localStorage (encryptBtn_click (fetch_json true (js "id.bin"))
                               sample_page);
             sessionStorage := ∅; fileInput := None; secretInput := [];
             decryptId := []; decryptSecret := []; statusDiv := [];
             footerId := None; decryptedView := view_text [] |})
     = js "hunter2".
Proof.
  split; [discriminate|]. split; [discriminate|]. split; [discriminate|].
  refine (proj1 (proj2 (remembered_values_restored sample_page _ (js "id.bin")
                          _ _ _ eq_refl))); discriminate.
Defined.

(** ** The preview area *)

Lemma node_ind (P : node -> Prop) :
  (forall d, P (Text d)) ->
  (forall u t c p l, Forall P l -> P (Element u t c p l)) ->
  forall n, P n.
Proof.
  intros HT HE. fix IH 1. intros [d | u t c p l].
  - apply HT.
  - apply HE. induction l as [| k l IHl]; constructor; [apply IH | exact IHl].
Qed.

Lemma update_absent u f n : u ∉ uids n -> update u f n = n.
Proof.
  induction n as [d | u' t c p l IH] using node_ind; intros Hu; [reflexivity|].
  cbn [uids] in Hu. rewrite not_elem_of_cons in Hu. destruct Hu as [Hne Hl].
  cbn [update]. destruct (Nat.eqb_spec u u') as [->|_]; [done|].
  f_equal. induction l as [| k l IHl]; [reflexivity|].
  cbn [flat_map] in Hl. rewrite not_elem_of_app in Hl. destruct Hl as [Hk Hl].
  inversion IH as [| ? ? Hk' Hl']; subst. cbn [map].
  rewrite Hk' by exact Hk. rewrite IHl by assumption. reflexivity.
Qed.

Lemma map_update_absent u f l :
  u ∉ flat_map uids l -> map (update u f) l = l.
Proof.
  induction l as [| k l IH]; [reflexivity|]. cbn [flat_map map].
  rewrite not_elem_of_app. intros [Hk Hl].
  rewrite update_absent by exact Hk. rewrite IH by exact Hl. reflexivity.
Qed.

Lemma first_among_app cls l1 l2 :
  first_among cls (l1 ++ l2) =
  match first_among cls l1 with
  | Some u => Some u
  | None => first_among cls l2
  end.
Proof.
  induction l1 as [| k l1 IH]; [reflexivity|].
  cbn [app]. change (first_among cls (k :: l1 ++ l2)) with
    (match first_with_class cls k with
     | Some u => Some u | None => first_among cls (l1 ++ l2) end).
  change (first_among cls (k :: l1)) with
    (match first_with_class cls k with
     | Some u => Some u | None => first_among cls l1 end).
  destruct (first_with_class cls k); [reflexivity | exact IH].
Qed.

Lemma first_among_cons cls k l :
  first_among cls (k :: l) =
  match first_with_class cls k with
  | Some u => Some u
  | None => first_among cls l
  end.
Proof. reflexivity. Qed.

Lemma first_with_class_fill cls s l :
  first_with_class cls (fill s l) =
  if has_class cls (shell_class s) then Some (shell_uid s)
  else first_among cls l.
Proof. reflexivity. Qed.

Lemma uids_scaffold F ck fk :
  uids (scaffold F ck fk) =
  shell_uid (outer F) ::
  flat_map uids (before F) ++
  (shell_uid (content F) :: flat_map uids ck) ++
  flat_map uids (between F) ++
  (shell_uid (footer F) :: flat_map uids fk) ++ flat_map uids (after F).
Proof.
  unfold scaffold, fill. cbn [uids]. f_equal.
  rewrite flat_map_app. cbn [flat_map uids]. rewrite flat_map_app.
  cbn [flat_map uids]. reflexivity.
Qed.

Lemma querySelector_content F ck fk :
  holder_ok F ->
  querySelector (js "preview-content") (scaffold F ck fk) =
  Some (shell_uid (content F)).
Proof.
  intros ((Hb & _) & _ & Hc & _). unfold scaffold, fill at 1, querySelector.
  rewrite first_among_app, Hb, first_among_cons, first_with_class_fill, Hc.
  reflexivity.
Qed.

Lemma querySelector_footer F ck fk :
  holder_ok F -> first_among (js "preview-footer") ck = None ->
  querySelector (js "preview-footer") (scaffold F ck fk) =
  Some (shell_uid (footer F)).
Proof.
  intros ((_ & Hb) & (_ & Hm) & _ & Hc & Hf) Hck.
  unfold scaffold, fill at 1, querySelector.
  rewrite first_among_app, Hb, first_among_cons, first_with_class_fill, Hc, Hck.
  rewrite first_among_app, Hm, first_among_cons, first_with_class_fill, Hf.
  reflexivity.
Qed.

Lemma map_update_at u f l1 s l l2 :
  shell_uid s = u -> u ∉ flat_map uids l1 -> u ∉ flat_map uids l2 ->
  map (update u f) (l1 ++ fill s l :: l2) = l1 ++ f (fill s l) :: l2.
Proof.
  intros <- H1 H2. rewrite map_app. cbn [map].
  rewrite !map_update_absent by assumption.
  unfold fill at 1. cbn [update]. rewrite Nat.eqb_refl. reflexivity.
Qed.

Lemma scaffold_distinct F ck fk :
  NoDup (uids (scaffold F ck fk)) ->
  let o := shell_uid (outer F) in
  let uc := shell_uid (content F) in
  let uf := shell_uid (footer F) in
  (uc <> o /\ (uc ∉ flat_map uids (before F)) /\
   (uc ∉ flat_map uids (between F ++ fill (footer F) fk :: after F))) /\
  (uf <> o /\
   (uf ∉ flat_map uids (before F ++ fill (content F) ck :: between F)) /\
   (uf ∉ flat_map uids (after F))).
Proof.
  rewrite uids_scaffold. intros Hnd o uc uf. fold o uc uf in Hnd.
  assert (Hc : uc ∉ (o :: flat_map uids (before F) ++ flat_map uids (between F)
                       ++ (uf :: flat_map uids fk) ++ flat_map uids (after F))
                    ++ flat_map uids ck).
  { apply NoDup_cons_1_1. revert Hnd. apply NoDup_Permutation_proper.
    solve_Permutation. }
  assert (Hf : uf ∉ (o :: flat_map uids (before F)
                       ++ (uc :: flat_map uids ck) ++ flat_map uids (between F)
                       ++ flat_map uids (after F)) ++ flat_map uids fk).
  { apply NoDup_cons_1_1. revert Hnd. apply NoDup_Permutation_proper.
    solve_Permutation. }
  rewrite !flat_map_app. cbn [flat_map]. rewrite ?flat_map_app.
  unfold fill. cbn [flat_map uids]. fold uc uf.
  clear Hnd.
  repeat (rewrite elem_of_app in * || rewrite elem_of_cons in * ).
  tauto.
Qed.

Lemma update_content F ck0 ck fk f :
  NoDup (uids (scaffold F ck0 fk)) ->
  update (shell_uid (content F)) f (scaffold F ck fk) =
  fill (outer F)
       (before F ++ f (fill (content F) ck) ::
        between F ++ fill (footer F) fk :: after F).
Proof.
  intros Hnd. destruct (scaffold_distinct _ _ _ Hnd) as ((Ho & Hb & Ha) & _).
  unfold scaffold, fill at 1 4. cbn [update].
  destruct (Nat.eqb_spec (shell_uid (content F)) (shell_uid (outer F)));
    [done|].
  f_equal. apply map_update_at; done.
Qed.

Lemma update_footer F ck fk0 fk f :
  NoDup (uids (scaffold F ck fk0)) ->
  update (shell_uid (footer F)) f (scaffold F ck fk) =
  fill (outer F)
       (before F ++ fill (content F) ck ::
        between F ++ f (fill (footer F) fk) :: after F).
Proof.
  intros Hnd. destruct (scaffold_distinct _ _ _ Hnd) as (_ & Ho & Hb & Ha).
  unfold scaffold, fill at 1 5. cbn [update].
  destruct (Nat.eqb_spec (shell_uid (footer F)) (shell_uid (outer F)));
    [done|].
  f_equal.
  change (before F ++ fill (content F) ck :: between F ++ fill (footer F) fk :: after F)
    with (before F ++ (fill (content F) ck :: between F) ++ fill (footer F) fk :: after F).
  rewrite !app_assoc. rewrite map_update_at by (try done; by rewrite <- app_assoc).
  by rewrite <- !app_assoc.
Qed.

Lemma el_className tag c next :
  el tag [("className"%string, prop_string c)] [] next =
  (Element next tag c [] [], S next).
Proof. reflexivity. Qed.

Lemma el_textContent tag s next :
  el tag [("textContent"%string, prop_string s)] [] next =
  (Element next tag [] [] (text_children s), S next).
Proof. reflexivity. Qed.

Lemma querySelector_fill cls s l :
  querySelector cls (fill s l) = first_among cls l.
Proof. reflexivity. Qed.

Lemma clear_fill s l : clear (fill s l) = fill s [].
Proof. reflexivity. Qed.

Lemma appendChild_fill c s l : appendChild c (fill s l) = fill s (l ++ [c]).
Proof. reflexivity. Qed.

Lemma ensurePreviewScaffold_new_eq s l next :
  ordinary l ->
  ensurePreviewScaffold (fill s l) next =
  (scaffold (new_holder s l next) [] [], S (S next), next, S next).
Proof.
  intros [Hc Hf]. unfold ensurePreviewScaffold.
  rewrite !querySelector_fill, Hc, Hf, !el_className.
  cbn [uid_of]. rewrite !appendChild_fill, <- app_assoc. reflexivity.
Qed.

Lemma new_holder_ok s l next : ordinary l -> holder_ok (new_holder s l next).
Proof. intros Hl. repeat split; try apply Hl; reflexivity. Qed.

Lemma ensurePreviewScaffold_existing_eq F ck fk next :
  holder_ok F -> first_among (js "preview-footer") ck = None ->
  NoDup (uids (scaffold F ck fk)) ->
  ensurePreviewScaffold (scaffold F ck fk) next =
  (scaffold F [] fk, next, shell_uid (content F), shell_uid (footer F)).
Proof.
  intros HF Hck Hnd. unfold ensurePreviewScaffold.
  rewrite querySelector_content, querySelector_footer by assumption.
  rewrite (update_content _ ck) by assumption. reflexivity.
Qed.

Lemma well_formed_scaffold F ck fk next :
  well_formed (scaffold F ck fk) next <->
  NoDup (holder_uids F ++ flat_map uids ck ++ flat_map uids fk) /\
  Forall (fun u => (u < next)%nat)
         (holder_uids F ++ flat_map uids ck ++ flat_map uids fk).
Proof.
  unfold well_formed. rewrite uids_scaffold.
  assert (HP : shell_uid (outer F) :: flat_map uids (before F) ++
               (shell_uid (content F) :: flat_map uids ck) ++
               flat_map uids (between F) ++
               (shell_uid (footer F) :: flat_map uids fk) ++
               flat_map uids (after F)
               ≡ₚ holder_uids F ++ flat_map uids ck ++ flat_map uids fk).
  { unfold holder_uids. solve_Permutation. }
  rewrite HP. reflexivity.
Qed.

Lemma well_formed_refill F ck fk ck' fk' next next' :
  well_formed (scaffold F ck fk) next -> (next <= next')%nat ->
  NoDup (flat_map uids ck' ++ flat_map uids fk') ->
  (forall u, u ∈ flat_map uids ck' ++ flat_map uids fk' ->
             (next <= u < next')%nat \/
             u ∈ flat_map uids ck ++ flat_map uids fk) ->
  well_formed (scaffold F ck' fk') next'.
Proof.
  rewrite !well_formed_scaffold.
  set (B := flat_map uids ck ++ flat_map uids fk).
  set (B' := flat_map uids ck' ++ flat_map uids fk').
  rewrite !NoDup_app, !Forall_app, !Forall_forall.
  intros ((HF & Hdis & _) & HltF & Hlt) Hle Hnd' Hnew.
  repeat split; try assumption.
  - intros u Hu Hu'. destruct (Hnew u Hu') as [Hn | Ho].
    + specialize (HltF u Hu). lia.
    + exact (Hdis u Hu Ho).
  - intros u Hu. specialize (HltF u Hu). lia.
  - intros u Hu. destruct (Hnew u Hu) as [Hn | Ho]; [lia|].
    specialize (Hlt u Ho). lia.
Qed.

Lemma well_formed_parts F ck fk next :
  well_formed (scaffold F ck fk) next ->
  NoDup (flat_map uids ck ++ flat_map uids fk) /\
  Forall (fun u => (u < next)%nat) (flat_map uids ck ++ flat_map uids fk).
Proof.
  rewrite well_formed_scaffold.
  set (B := flat_map uids ck ++ flat_map uids fk).
  rewrite NoDup_app, Forall_app. tauto.
Qed.

Lemma well_formed_new_holder s l next :
  well_formed (fill s l) next ->
  well_formed (scaffold (new_holder s l next) [] []) (S (S next)).
Proof.
  rewrite well_formed_scaffold. unfold well_formed, fill, holder_uids.
  cbn [uids new_holder outer content footer before between after div_shell shell_uid
       flat_map app].
  rewrite !app_nil_r, !NoDup_cons, !Forall_cons, !Forall_forall.
  rewrite !not_elem_of_cons.
  intros ((Ho & Hl) & Hlto & Hlt).
  assert (Hn : forall k, (next <= k)%nat -> k ∉ flat_map uids l).
  { intros k Hk Hin. specialize (Hlt k Hin). lia. }
  repeat split; try assumption; try lia; try (apply Hn; lia).
  intros u Hu. specialize (Hlt u Hu). lia.
Qed.

Lemma update_content_clear F ck fk :
  NoDup (uids (scaffold F ck fk)) ->
  update (shell_uid (content F)) clear (scaffold F ck fk) = scaffold F [] fk.
Proof. intros H. by rewrite (update_content _ ck). Qed.

Lemma update_content_append F ck0 ck fk c :
  NoDup (uids (scaffold F ck0 fk)) ->
  update (shell_uid (content F)) (appendChild c) (scaffold F ck fk) =
  scaffold F (ck ++ [c]) fk.
Proof. intros H. by rewrite (update_content _ ck0). Qed.

Lemma update_footer_clear F ck fk0 fk :
  NoDup (uids (scaffold F ck fk0)) ->
  update (shell_uid (footer F)) clear (scaffold F ck fk) = scaffold F ck [].
Proof. intros H. by rewrite (update_footer _ _ fk0). Qed.

Lemma update_footer_append F ck fk0 fk c :
  NoDup (uids (scaffold F ck fk0)) ->
  update (shell_uid (footer F)) (appendChild c) (scaffold F ck fk) =
  scaffold F ck (fk ++ [c]).
Proof. intros H. by rewrite (update_footer _ _ fk0). Qed.

Lemma el_plain tag next : el tag [] [] next = (Element next tag [] [] [], S next).
Proof. reflexivity. Qed.

Lemma el_text tag s next :
  el tag [] [child_string s] next = (Element next tag [] [] [Text s], S next).
Proof. reflexivity. Qed.

Lemma el_className_text tag c s next :
  el tag [("className"%string, prop_string c)] [child_string s] next =
  (Element next tag c [] [Text s], S next).
Proof. reflexivity. Qed.

Lemma showEncryptedId_scaffold F ck fk next id :
  holder_ok F -> first_among (js "preview-footer") ck = None ->
  well_formed (scaffold F ck fk) next ->
  showEncryptedId id {| previewDiv := scaffold F ck fk; next_uid := next |} =
  ({| previewDiv := scaffold F [] (id_line id next);
      next_uid := S (S (S (S next))) |}, S (S next)) /\
  well_formed (scaffold F [] (id_line id next)) (S (S (S (S next)))).
Proof.
  intros HF Hck Hwf.
  assert (Hwf0 : well_formed (scaffold F [] fk) next).
  { apply (well_formed_refill F ck fk [] fk next next); [done | lia | |].
    - apply well_formed_parts in Hwf as [Hnd _].
      cbn [flat_map app]. by apply NoDup_app in Hnd as (_ & _ & ?).
    - intros u Hu. right. by apply elem_of_app; right. }
  split.
  - unfold showEncryptedId. cbn [previewDiv next_uid].
    rewrite ensurePreviewScaffold_existing_eq by (try done; apply Hwf).
    cbv beta iota zeta.
    rewrite (update_footer_clear _ _ fk) by apply Hwf0.
    rewrite el_className_text. cbv beta iota zeta.
    rewrite (update_footer_append _ _ fk) by apply Hwf0.
    rewrite el_text. cbv beta iota zeta.
    rewrite (update_footer_append _ _ fk) by apply Hwf0.
    change (el "button" _ _ (S (S next))) with
      (Element (S (S next)) "button" (js "copy-btn")
         [("type"%string, prop_string (js "button"))] [Text (js "Copy")],
       S (S (S next))).
    cbv beta iota zeta. rewrite el_text. cbv beta iota zeta.
    rewrite !(update_footer_append _ _ fk) by apply Hwf0.
    reflexivity.
  - apply (well_formed_refill F [] fk _ _ next); [done | lia | |].
    + cbn. rewrite !NoDup_cons, !not_elem_of_cons. 
      repeat split; try lia; try apply not_elem_of_nil. apply NoDup_nil_2.
    + intros u Hu. left. cbn in Hu. rewrite !elem_of_cons in Hu.
      rewrite elem_of_nil in Hu. lia.
Qed.

Lemma text_is_not_image t :
  startsWith (js "text/") t = true -> startsWith (js "image/") t = false.
Proof.
  destruct t as [| c r]; [discriminate|].
  change (((116 =? c) && startsWith (js "ext/") r = true) ->
          ((105 =? c) && startsWith (js "mage/") r = false)).
  destruct (N.eqb_spec 116 c) as [<-|]; [reflexivity | discriminate].
Qed.

Lemma text_is_not_pdf t :
  startsWith (js "text/") t = true -> t <> js "application/pdf".
Proof. intros H ->. discriminate. Qed.

Lemma well_formed_cleared F ck fk next :
  well_formed (scaffold F ck fk) next -> well_formed (scaffold F [] fk) next.
Proof.
  intros Hwf. apply (well_formed_refill F ck fk [] fk next next); [done | lia | |].
  - apply well_formed_parts in Hwf as [Hnd _].
    cbn [flat_map app]. by apply NoDup_app in Hnd as (_ & _ & ?).
  - intros u Hu. right. by apply elem_of_app; right.
Qed.

Lemma well_formed_append_content F ck fk next tag className props l :
  well_formed (scaffold F ck fk) next -> flat_map uids l = [] ->
  well_formed (scaffold F (ck ++ [Element next tag className props l]) fk)
              (S next).
Proof.
  intros Hwf Hl.
  apply (well_formed_refill F ck fk _ _ next); [done | lia | |].
  - apply well_formed_parts in Hwf as [Hnd Hlt].
    rewrite flat_map_app. cbn [flat_map uids]. rewrite Hl, app_nil_r.
    rewrite Forall_forall in Hlt.
    assert (Hn : next ∉ flat_map uids ck ++ flat_map uids fk).
    { intros H. specialize (Hlt _ H). lia. }
    assert (HP : (flat_map uids ck ++ [next]) ++ flat_map uids fk
                 ≡ₚ next :: (flat_map uids ck ++ flat_map uids fk))
      by solve_Permutation.
    rewrite HP. by apply NoDup_cons.
  - intros u. rewrite flat_map_app. cbn [flat_map uids].
    rewrite Hl, app_nil_r, !elem_of_app, elem_of_cons, elem_of_nil.
    intros [[H|[->|[]]]|H].
    + right. by left.
    + left. lia.
    + right. by right.
Qed.

Lemma previewFile_scaffold F ck fk next file :
  holder_ok F -> first_among (js "preview-footer") ck = None ->
  well_formed (scaffold F ck fk) next ->
  exists ck' next' reading,
    previewFile file (scaffold F ck fk) next =
      (scaffold F ck' fk, next', reading) /\
    first_among (js "preview-footer") ck' = None /\
    well_formed (scaffold F ck' fk) next' /\
    if startsWith (js "text/") (file_type file) then
      ck' = [] /\ next' = next /\ reading = Some (shell_uid (content F))
    else length ck' = 1%nat /\ reading = None.
Proof.
  intros HF Hck Hwf. pose proof (well_formed_cleared _ _ _ _ Hwf) as Hwf0.
  unfold previewFile.
  rewrite ensurePreviewScaffold_existing_eq by (try done; apply Hwf).
  cbv beta iota zeta.
  destruct (startsWith (js "image/") (file_type file)) eqn:Himg;
    [| destruct (bool_decide (file_type file = js "application/pdf")) eqn:Hpdf;
       [| destruct (startsWith (js "text/") (file_type file)) eqn:Htxt]].
  - rewrite el_plain. cbv beta iota zeta.
    rewrite (update_content_append _ []) by apply Hwf0.
    destruct (startsWith (js "text/") (file_type file)) eqn:Htxt.
    { apply text_is_not_image in Htxt. congruence. }
    eexists _, _, _. split; [reflexivity|].
    split; [reflexivity|]. split; [|done].
    by apply (well_formed_append_content F []).
  - rewrite el_plain. cbv beta iota zeta.
    rewrite (update_content_append _ []) by apply Hwf0.
    destruct (startsWith (js "text/") (file_type file)) eqn:Htxt.
    { apply text_is_not_pdf in Htxt. by apply bool_decide_eq_true in Hpdf. }
    eexists _, _, _. split; [reflexivity|].
    split; [reflexivity|]. split; [|done].
    by apply (well_formed_append_content F []).
  - eexists _, _, _. split; [reflexivity|]. done.
  - rewrite el_textContent. cbv beta iota zeta.
    rewrite (update_content_append _ []) by apply Hwf0.
    eexists _, _, _. split; [reflexivity|].
    split; [reflexivity|]. split; [|done].
    by apply (well_formed_append_content F []).
Qed.

Lemma preview_area_scaffolded c next :
  preview_area c -> well_formed c next ->
  exists F fk next',
    holder_ok F /\ well_formed (scaffold F [] fk) next' /\
    ensurePreviewScaffold c next =
      (scaffold F [] fk, next', shell_uid (content F), shell_uid (footer F)).
Proof.
  intros [s l Hl | F ck fk HF Hck] Hwf.
  - exists (new_holder s l next), [], (S (S next)).
    split; [by apply new_holder_ok|]. split; [by apply well_formed_new_holder|].
    by apply ensurePreviewScaffold_new_eq.
  - exists F, fk, next. split; [done|].
    split; [by apply well_formed_cleared in Hwf|].
    apply ensurePreviewScaffold_existing_eq; [done | done | apply Hwf].
Qed.

Lemma ensurePreviewScaffold_cleared F fk next :
  holder_ok F -> well_formed (scaffold F [] fk) next ->
  ensurePreviewScaffold (scaffold F [] fk) next =
  (scaffold F [] fk, next, shell_uid (content F), shell_uid (footer F)).
Proof.
  intros HF Hwf. apply ensurePreviewScaffold_existing_eq;
    [done | reflexivity | apply Hwf].
Qed.

Lemma update_inside_footer u f F ck fk next :
  well_formed (scaffold F ck fk) next -> (next <= u)%nat ->
  forall fk',
    update u f (scaffold F ck fk') = scaffold F ck (map (update u f) fk').
Proof.
  intros Hwf Hu fk'. apply well_formed_scaffold in Hwf as [_ Hlt].
  rewrite !Forall_app, !Forall_forall in Hlt. destruct Hlt as (HF & Hck & _).
  assert (Hfresh : forall l : list nat,
             (forall x, x ∈ l -> (x < next)%nat) -> u ∉ l).
  { intros l Hl Hin. specialize (Hl _ Hin). lia. }
  unfold holder_uids in HF.
  assert (Ho : u <> shell_uid (outer F)).
  { intros ->. assert (shell_uid (outer F) < next)%nat; [|lia].
    apply HF. rewrite !elem_of_cons. tauto. }
  assert (Hc : u <> shell_uid (content F)).
  { intros ->. assert (shell_uid (content F) < next)%nat; [|lia].
    apply HF. rewrite !elem_of_cons. tauto. }
  assert (Hf : u <> shell_uid (footer F)).
  { intros ->. assert (shell_uid (footer F) < next)%nat; [|lia].
    apply HF. rewrite !elem_of_cons. tauto. }
  unfold scaffold, fill. cbn [update].
  destruct (Nat.eqb_spec u (shell_uid (outer F))); [done|].
  f_equal. rewrite map_app. cbn [map update].
  destruct (Nat.eqb_spec u (shell_uid (content F))); [done|].
  rewrite map_app. cbn [map update].
  destruct (Nat.eqb_spec u (shell_uid (footer F))); [done|].
  assert (Hin : forall l : list node,
             (forall x, x ∈ flat_map uids l -> x ∈ holder_uids F) ->
             map (update u f) l = l).
  { intros l Hl. apply map_update_absent, Hfresh. intros x Hx.
    by apply HF, Hl. }
  rewrite (Hin (before F)), (Hin (between F)), (Hin (after F));
    try (intros x Hx; unfold holder_uids; rewrite !elem_of_cons, !elem_of_app;
         tauto).
  rewrite map_update_absent; [reflexivity|]. by apply Hfresh.
Qed.

Lemma previewFile_area file c next :
  preview_area c -> well_formed c next ->
  exists F ck fk next' reading,
    previewFile file c next = (scaffold F ck fk, next', reading) /\
    holder_ok F /\ first_among (js "preview-footer") ck = None /\
    well_formed (scaffold F ck fk) next'.
Proof.
  intros Hc Hwf.
  destruct (preview_area_scaffolded c next Hc Hwf) as (F & fk & n & HF & Hn & E).
  destruct (previewFile_scaffold F [] fk n file HF eq_refl Hn)
    as (ck' & next' & reading & E' & Hck' & Hwf' & _).
  exists F, ck', fk, next', reading. split; [|done].
  rewrite <- E'. unfold previewFile.
  rewrite E, (ensurePreviewScaffold_cleared F fk n HF Hn). reflexivity.
Qed.

Lemma sample_holder_ok : holder_ok sample_holder.
Proof. repeat split; vm_compute; reflexivity. Qed.

Lemma sample_box_well_formed : well_formed (fill sample_box []) 1.
Proof. split; apply (bool_decide_unpack _); vm_compute; exact I. Qed.

Lemma sample_preview_well_formed :
  well_formed (scaffold sample_holder [sample_img] []) 4.
Proof. split; apply (bool_decide_unpack _); vm_compute; exact I. Qed.

(** X15. [ensurePreviewScaffold], first call: on a container that holds neither
    part of the scaffold the function appends the content element and then
    the footer element, both empty, as the last two children, and returns
    them; a second call returns the same two elements and changes nothing. *)
Theorem ensurePreviewScaffold_builds_once s l next :
  ordinary l -> well_formed (fill s l) next ->
  ensurePreviewScaffold (fill s l) next =
    (fill s (l ++ [Element next "div" (js "preview-content") [] [];
                   Element (S next) "div" (js "preview-footer") [] []]),
     S (S next), next, S next) /\
  ensurePreviewScaffold
    (fill s (l ++ [Element next "div" (js "preview-content") [] [];
                   Element (S next) "div" (js "preview-footer") [] []]))
    (S (S next)) =
    (fill s (l ++ [Element next "div" (js "preview-content") [] [];
                   Element (S next) "div" (js "preview-footer") [] []]),
     S (S next), next, S next) /\
  well_formed
    (fill s (l ++ [Element next "div" (js "preview-content") [] [];
                   Element (S next) "div" (js "preview-footer") [] []]))
    (S (S next)).
Proof.
  intros Hl Hwf.
  pose proof (well_formed_new_holder s l next Hwf) as Hwf'.
  pose proof (new_holder_ok s l next Hl) as HF.
  split; [exact (ensurePreviewScaffold_new_eq s l next Hl)|].
  split; [|exact Hwf'].
  exact (ensurePreviewScaffold_cleared _ [] _ HF Hwf').
Qed.

Lemma ensurePreviewScaffold_builds_once_witness :
  ordinary [] /\ well_formed (fill sample_box []) 1
  /\ ensurePreviewScaffold (fill sample_box []) 1 =
       (scaffold sample_holder [] [], 3%nat, 1%nat, 2%nat)
  /\ ensurePreviewScaffold (scaffold sample_holder [] []) 3 =
       (scaffold sample_holder [] [], 3%nat, 1%nat, 2%nat).
Proof.
  assert (Ho : ordinary []) by (split; reflexivity).
  split; [exact Ho|]. split; [exact sample_box_well_formed|].
  destruct (ensurePreviewScaffold_builds_once sample_box [] 1 Ho
              sample_box_well_formed) as (H1 & H2 & _).
  split; [exact H1 | exact H2].
Defined.

(** X16. [ensurePreviewScaffold], later calls: on a container that holds the
    scaffold the function creates nothing, removes every child of the content
    element, leaves the footer with its children and the rest of the
    container as they are, and returns the two existing elements. *)
Theorem ensurePreviewScaffold_reuses F ck fk next :
  holder_ok F -> first_among (js "preview-footer") ck = None ->
  well_formed (scaffold F ck fk) next ->
  ensurePreviewScaffold (scaffold F ck fk) next =
    (scaffold F [] fk, next, shell_uid (content F), shell_uid (footer F)) /\
  well_formed (scaffold F [] fk) next.
Proof.
  intros HF Hck Hwf. split; [|by apply well_formed_cleared in Hwf].
  apply ensurePreviewScaffold_existing_eq; [done | done | apply Hwf].
Qed.

Lemma ensurePreviewScaffold_reuses_witness :
  holder_ok sample_holder
  /\ first_among (js "preview-footer") [sample_img] = None
  /\ well_formed (scaffold sample_holder [sample_img] []) 4
  /\ ensurePreviewScaffold (scaffold sample_holder [sample_img] []) 4 =
       (scaffold sample_holder [] [], 4%nat, 1%nat, 2%nat).
Proof.
  split; [exact sample_holder_ok|]. split; [reflexivity|].
  split; [exact sample_preview_well_formed|].
  exact (proj1 (ensurePreviewScaffold_reuses sample_holder [sample_img] [] 4
                  sample_holder_ok eq_refl sample_preview_well_formed)).
Defined.

(** X17. The change listener of the file input, that is [previewFile]:
    choosing a file replaces whatever the content element held by at most one
    node and never touches the footer; for a text file no element is made and
    the content stays empty until the reader has loaded, for every other file
    the content holds exactly one node. *)
Theorem fileInput_change_replaces_preview F ck fk next file :
  holder_ok F -> first_among (js "preview-footer") ck = None ->
  well_formed (scaffold F ck fk) next ->
  exists ck' next' reading,
    fileInput_change (Some file)
      {| previewDiv := scaffold F ck fk; next_uid := next |} =
      ({| previewDiv := scaffold F ck' fk; next_uid := next' |}, reading) /\
    first_among (js "preview-footer") ck' = None /\
    well_formed (scaffold F ck' fk) next' /\
    if startsWith (js "text/") (file_type file) then
      ck' = [] /\ next' = next /\ reading = Some (shell_uid (content F))
    else length ck' = 1%nat /\ reading = None.
Proof.
  intros HF Hck Hwf.
  destruct (previewFile_scaffold F ck fk next file HF Hck Hwf)
    as (ck' & next' & reading & E & H).
  exists ck', next', reading. split; [|exact H].
  unfold fileInput_change. cbn [previewDiv next_uid]. rewrite E. reflexivity.
Qed.

Lemma fileInput_change_replaces_preview_witness :
  holder_ok sample_holder
  /\ first_among (js "preview-footer") [sample_img] = None
  /\ well_formed (scaffold sample_holder [sample_img] []) 4
  /\ exists next' reading,
       fileInput_change (Some sample_text) sample_preview =
       ({| previewDiv := scaffold sample_holder [] []; next_uid := next' |},
        reading)
       /\ reading = Some 1%nat.
Proof.
  split; [exact sample_holder_ok|]. split; [reflexivity|].
  split; [exact sample_preview_well_formed|].
  destruct (fileInput_change_replaces_preview sample_holder [sample_img] [] 4
              sample_text sample_holder_ok eq_refl sample_preview_well_formed)
    as (ck' & next' & reading & E & _ & _ & H).
  change (startsWith (js "text/") (file_type sample_text)) with true in H.
  destruct H as (-> & _ & ->).
  exists next', (Some 1%nat). split; [exact E | reflexivity].
Defined.

(** X18. [showEncryptedId]: the footer's children are replaced by the label,
    the [code] element with the id, a space and the copy button, in this
    order; the content element is emptied on the way, so the preview is gone;
    a second id replaces the first. *)
Theorem showEncryptedId_replaces F ck fk next id id' :
  holder_ok F -> first_among (js "preview-footer") ck = None ->
  well_formed (scaffold F ck fk) next ->
  showEncryptedId id {| previewDiv := scaffold F ck fk; next_uid := next |} =
    ({| previewDiv := scaffold F [] (id_line id next);
        next_uid := S (S (S (S next))) |}, S (S next)) /\
  showEncryptedId id'
    {| previewDiv := scaffold F [] (id_line id next);
       next_uid := S (S (S (S next))) |} =
    ({| previewDiv := scaffold F [] (id_line id' (S (S (S (S next)))));
        next_uid := S (S (S (S (S (S (S (S next))))))) |},
     S (S (S (S (S (S next)))))).
Proof.
  intros HF Hck Hwf.
  destruct (showEncryptedId_scaffold F ck fk next id HF Hck Hwf) as [E Hwf'].
  split; [exact E|].
  exact (proj1 (showEncryptedId_scaffold F [] _ _ id' HF eq_refl Hwf')).
Qed.

Lemma showEncryptedId_replaces_witness :
  holder_ok sample_holder
  /\ first_among (js "preview-footer") [sample_img] = None
  /\ well_formed (scaffold sample_holder [sample_img] []) 4
  /\ showEncryptedId (js "id1") sample_preview =
       ({| previewDiv := scaffold sample_holder [] (id_line (js "id1") 4);
           next_uid := 8 |}, 6%nat).
Proof.
  split; [exact sample_holder_ok|]. split; [reflexivity|].
  split; [exact sample_preview_well_formed|].
  exact (proj1 (showEncryptedId_replaces sample_holder [sample_img] [] 4
                  (js "id1") (js "id2") sample_holder_ok eq_refl
                  sample_preview_well_formed)).
Defined.

(** X19. The click listener of the encrypt button, upload accepted: whatever
    the preview area held, and whether or not the listener built the preview
    itself, the content element is empty when the listener is done and the
    footer shows the id.  (A reader the listener started may still append its
    text later.) *)
Theorem upload_empties_preview d file c secret id :
  preview_area (previewDiv d) -> well_formed (previewDiv d) (next_uid d) ->
  exists F n reading,
    holder_ok F /\
    encryptBtn_click_preview (Some file) (c :: secret) (fetch_json true id) d =
      ({| previewDiv := scaffold F [] (id_line id n);
          next_uid := S (S (S (S n))) |}, reading, Some (S (S n))).
Proof.
  destruct d as [cont next]. cbn [previewDiv next_uid]. intros Harea Hwf.
  unfold encryptBtn_click_preview. cbn [previewDiv].
  destruct Harea as [s l Hl | F ck fk HF Hck].
  - rewrite querySelector_fill, (proj1 Hl).
    unfold fileInput_change. cbn [previewDiv next_uid].
    destruct (previewFile_area file (fill s l) next (area_plain s l Hl) Hwf)
      as (F & ck & fk & next' & reading & E & HF & Hck & Hwf').
    rewrite E.
    destruct (showEncryptedId_scaffold F ck fk next' id HF Hck Hwf') as [E' _].
    rewrite E'. exists F, next', reading. by split.
  - rewrite querySelector_content by done.
    destruct (showEncryptedId_scaffold F ck fk next id HF Hck Hwf) as [E' _].
    rewrite E'. exists F, next, None. by split.
Qed.

Lemma upload_empties_preview_witness :
  preview_area (previewDiv sample_preview)
  /\ well_formed (previewDiv sample_preview) (next_uid sample_preview)
  /\ exists F n reading,
       holder_ok F /\
       encryptBtn_click_preview (Some sample_image) (js "correct-horse")
         (fetch_json true (js "id1")) sample_preview =
       ({| previewDiv := scaffold F [] (id_line (js "id1") n);
           next_uid := S (S (S (S n))) |}, reading, Some (S (S n))).
Proof.
  assert (Ha : preview_area (previewDiv sample_preview)).
  { exact (area_scaffold sample_holder [sample_img] [] sample_holder_ok eq_refl). }
  split; [exact Ha|]. split; [exact sample_preview_well_formed|].
  exact (upload_empties_preview sample_preview sample_image 99
           (js "orrect-horse") (js "id1") Ha sample_preview_well_formed).
Defined.

(** X20. The click listener of the encrypt button, every other case: with the
    scaffold in place, a click without a file or a secret, a rejected upload
    and a failed request leave the preview area exactly as it was. *)
Theorem failed_upload_keeps_preview F ck fk next file secret reply :
  holder_ok F -> (forall id, reply <> fetch_json true id) ->
  encryptBtn_click_preview file secret reply
    {| previewDiv := scaffold F ck fk; next_uid := next |} =
  ({| previewDiv := scaffold F ck fk; next_uid := next |}, None, None).
Proof.
  intros HF Hreply. unfold encryptBtn_click_preview. cbn [previewDiv].
  rewrite querySelector_content by done.
  destruct file as [f|], secret as [|c secret]; try reflexivity.
  destruct reply as [| [|] id]; try reflexivity. by destruct (Hreply id).
Qed.

Lemma failed_upload_keeps_preview_witness :
  holder_ok sample_holder
  /\ (forall id, fetch_rejected <> fetch_json true id)
  /\ encryptBtn_click_preview (Some sample_image) (js "correct-horse")
       fetch_rejected sample_preview = (sample_preview, None, None).
Proof.
  split; [exact sample_holder_ok|]. split; [discriminate|].
  apply (failed_upload_keeps_preview sample_holder [sample_img] [] 4
           (Some sample_image) (js "correct-horse") fetch_rejected
           sample_holder_ok).
  discriminate.
Defined.

Lemma reader_onload_scaffold F ck fk next result :
  well_formed (scaffold F ck fk) next ->
  reader_onload (shell_uid (content F)) result
    {| previewDiv := scaffold F ck fk; next_uid := next |} =
    {| previewDiv :=
         scaffold F (ck ++ [Element next "pre" [] [] (text_children result)]) fk;
       next_uid := S next |} /\
  well_formed
    (scaffold F (ck ++ [Element next "pre" [] [] (text_children result)]) fk)
    (S next).
Proof.
  intros Hwf. split.
  - unfold reader_onload. cbn [previewDiv next_uid].
    rewrite el_textContent.
    rewrite (update_content_append _ ck) by apply Hwf. reflexivity.
  - apply well_formed_append_content; [done|]. by destruct result.
Qed.

Lemma relabel_id_line label' label id next :
  label' <> [] ->
  map (update (S (S next)) (assign "textContent" (prop_string label')))
      (id_line_labelled label id next) =
  id_line_labelled label' id next.
Proof.
  intros Hl. unfold id_line_labelled. cbn [map update].
  rewrite Nat.eqb_refl.
  destruct (Nat.eqb_spec (S (S next)) next); [lia|].
  destruct (Nat.eqb_spec (S (S next)) (S next)); [lia|].
  destruct (Nat.eqb_spec (S (S next)) (S (S (S next)))); [lia|].
  by destruct label'.
Qed.

Lemma update_other_id_line u f label id next :
  (u < next)%nat ->
  map (update u f) (id_line_labelled label id next) =
  id_line_labelled label id next.
Proof.
  intros Hu. apply map_update_absent. cbn.
  rewrite !not_elem_of_cons. repeat split; try lia. apply not_elem_of_nil.
Qed.

(** X21. The copy button: a click whose clipboard write succeeds changes the
    button's label to Copied and nothing else, and the timer puts the tree
    back exactly as [showEncryptedId] left it; once a later id has replaced
    the id line, the old button's listener and timer change nothing in the
    tree. *)
Theorem copy_button_label F ck fk next id id' :
  holder_ok F -> first_among (js "preview-footer") ck = None ->
  well_formed (scaffold F ck fk) next ->
  let shown := showEncryptedId id
                 {| previewDiv := scaffold F ck fk; next_uid := next |} in
  let again := showEncryptedId id' shown.1 in
  previewDiv (copyBtn_click true shown.2 shown.1) =
    scaffold F [] (id_line_labelled (js "Copied") id next) /\
  copyBtn_timeout shown.2 (copyBtn_click true shown.2 shown.1) = shown.1 /\
  copyBtn_click true shown.2 again.1 = again.1 /\
  copyBtn_timeout shown.2 again.1 = again.1.
Proof.
  intros HF Hck Hwf shown again.
  destruct (showEncryptedId_scaffold F ck fk next id HF Hck Hwf) as [E Hwf'].
  destruct (showEncryptedId_scaffold F [] _ _ id' HF eq_refl Hwf')
    as [E' Hwf''].
  subst again shown. rewrite E. cbn [fst snd]. rewrite E'. cbn [fst snd].
  unfold copyBtn_click, copyBtn_timeout. cbn [previewDiv next_uid].
  pose proof (well_formed_cleared _ _ _ _ Hwf) as Hwf0.
  assert (Hin : forall u f fk',
             (next <= u)%nat ->
             update u f (scaffold F [] fk') =
             scaffold F [] (map (update u f) fk')).
  { intros u f fk' Hu. by apply (update_inside_footer u f F [] fk next). }
  unfold id_line. repeat split.
  - rewrite Hin by lia. by rewrite relabel_id_line.
  - f_equal. rewrite Hin by lia. rewrite relabel_id_line by done.
    rewrite Hin by lia. by rewrite relabel_id_line.
  - f_equal. rewrite Hin by lia. by rewrite update_other_id_line by lia.
  - f_equal. rewrite Hin by lia. by rewrite update_other_id_line by lia.
Qed.

Lemma copy_button_label_witness :
  holder_ok sample_holder
  /\ first_among (js "preview-footer") [sample_img] = None
  /\ well_formed (scaffold sample_holder [sample_img] []) 4
  /\ previewDiv
       (copyBtn_click true (showEncryptedId (js "id1") sample_preview).2
          (showEncryptedId (js "id1") sample_preview).1) =
     scaffold sample_holder [] (id_line_labelled (js "Copied") (js "id1") 4).
Proof.
  split; [exact sample_holder_ok|]. split; [reflexivity|].
  split; [exact sample_preview_well_formed|].
  exact (proj1 (copy_button_label sample_holder [sample_img] [] 4
                  (js "id1") (js "id2") sample_holder_ok eq_refl
                  sample_preview_well_formed)).
Defined.

(** X22. Two text files chosen one after the other, both readers loading
    afterwards: each choice starts a reader on the same content element, and
    each reader appends its [pre], so the preview ends up showing the text of
    both files. *)
Theorem texts_of_both_readers_shown F ck fk next a b text_a text_b :
  holder_ok F -> first_among (js "preview-footer") ck = None ->
  well_formed (scaffold F ck fk) next ->
  startsWith (js "text/") (file_type a) = true ->
  startsWith (js "text/") (file_type b) = true ->
  let first := fileInput_change (Some a)
                 {| previewDiv := scaffold F ck fk; next_uid := next |} in
  let second := fileInput_change (Some b) first.1 in
  first.2 = Some (shell_uid (content F)) /\
  second.2 = Some (shell_uid (content F)) /\
  reader_onload (shell_uid (content F)) text_b
    (reader_onload (shell_uid (content F)) text_a second.1) =
  {| previewDiv :=
       scaffold F
         [Element next "pre" [] [] (text_children text_a);
          Element (S next) "pre" [] [] (text_children text_b)] fk;
     next_uid := S (S next) |}.
Proof.
  intros HF Hck Hwf Ha Hb first second.
  destruct (previewFile_scaffold F ck fk next a HF Hck Hwf)
    as (ck1 & n1 & r1 & E1 & _ & Hwf1 & H1).
  rewrite Ha in H1. destruct H1 as (-> & -> & ->).
  destruct (previewFile_scaffold F [] fk next b HF eq_refl Hwf1)
    as (ck2 & n2 & r2 & E2 & _ & Hwf2 & H2).
  rewrite Hb in H2. destruct H2 as (-> & -> & ->).
  subst second first. unfold fileInput_change. cbn [previewDiv next_uid].
  rewrite E1. cbn [fst snd previewDiv next_uid]. rewrite E2. cbn [fst snd].
  split; [reflexivity|]. split; [reflexivity|].
  destruct (reader_onload_scaffold F [] fk next text_a Hwf2) as [Ea Hwfa].
  rewrite Ea.
  destruct (reader_onload_scaffold F _ fk _ text_b Hwfa) as [Eb _].
  rewrite Eb. reflexivity.
Qed.

Lemma texts_of_both_readers_shown_witness :
  holder_ok sample_holder
  /\ first_among (js "preview-footer") [sample_img] = None
  /\ well_formed (scaffold sample_holder [sample_img] []) 4
  /\ startsWith (js "text/") (file_type sample_text) = true
  /\ reader_onload 1 (js "world")
       (reader_onload 1 (js "hello")
          (fileInput_change (Some sample_text)
             (fileInput_change (Some sample_text) sample_preview).1).1) =
     {| previewDiv :=
          scaffold sample_holder
            [Element 4 "pre" [] [] (text_children (js "hello"));
             Element 5 "pre" [] [] (text_children (js "world"))] [];
        next_uid := 6 |}.
Proof.
  split; [exact sample_holder_ok|]. split; [reflexivity|].
  split; [exact sample_preview_well_formed|]. split; [reflexivity|].
  exact (proj2 (proj2 (texts_of_both_readers_shown sample_holder [sample_img]
                         [] 4 sample_text sample_text (js "hello")
                         (js "world") sample_holder_ok eq_refl
                         sample_preview_well_formed eq_refl eq_refl))).
Defined.
